(** * FilePagedSequence (n6lib.common_helpers): a paged, disk-spilling sequence

    A shallow embedding of the class [FilePagedSequence] of
    [N6Lib/n6lib/common_helpers.py] together with the part of the world it
    touches (its temporary directory and the page files in it), and proofs
    of the properties its specification states.

    Python integers are [Z]; [divmod] is floor division, which is what
    [Z.div] and [Z.modulo] compute, with the division by zero raised
    explicitly.  Exceptions are results of a state-and-exception monad: an
    operation that raises still returns the state it left behind.  Pickling
    a page and loading it back is the identity on lists of (picklable)
    items; a page file is a snapshot, never an alias of the resident list. *)

From stdpp Require Import base option list gmap strings.
From Stdlib Require Import ZArith Lia Ascii.

Local Open Scope Z_scope.

(** ** Exceptions, indices and disk operations *)

Inductive exn : Type :=
| IndexError
| NotImplementedError
| ZeroDivisionError
| IOError
| OSError.

(** What a caller may put between the square brackets (or pass to [pop]). *)
Inductive pyindex : Type :=
| Int (i : Z)
| Slice.

(** Every call that reaches the file system, in the order it is made. *)
Inductive disk_op : Type :=
| Mkdtemp
| OpenWrite (page_file : Z)
| OpenRead (page_file : Z)
| Listdir
| Remove (page_file : Z)
| Rmdir.

#[global] Instance exn_eq_dec : EqDecision exn.
Proof. solve_decision. Defined.

#[global] Instance pyindex_eq_dec : EqDecision pyindex.
Proof. solve_decision. Defined.

#[global] Instance disk_op_eq_dec : EqDecision disk_op.
Proof. solve_decision. Defined.

Section FilePagedSequence.

Context {A : Type}.

(** ** The instance and its directory

    The first five fields are the attributes set by [__init__].
    [_dir_cached] is ['_dir' in self.__dict__]: whether the reified
    property [_dir] has been computed.  [tmpdir] is the directory on disk
    ([None]: no such directory), a page file being named by its page
    number; [disk_log] records the disk operations made so far. *)

Record FilePagedSequence : Type := mkFPS {
  _page_size : Z;
  _cur_len : Z;
  _cur_page_no : option Z;
  _cur_page_data : list A;
  _closed : bool;
  _dir_cached : bool;
  tmpdir : option (gmap Z (list A));
  disk_log : list disk_op
}.

Definition with_cur_len (n : Z) (s : FilePagedSequence) : FilePagedSequence :=
  mkFPS (_page_size s) n (_cur_page_no s) (_cur_page_data s) (_closed s)
        (_dir_cached s) (tmpdir s) (disk_log s).

Definition with_cur_page_no (p : option Z) (s : FilePagedSequence) : FilePagedSequence :=
  mkFPS (_page_size s) (_cur_len s) p (_cur_page_data s) (_closed s)
        (_dir_cached s) (tmpdir s) (disk_log s).

Definition with_cur_page_data (d : list A) (s : FilePagedSequence) : FilePagedSequence :=
  mkFPS (_page_size s) (_cur_len s) (_cur_page_no s) d (_closed s)
        (_dir_cached s) (tmpdir s) (disk_log s).

Definition with_closed (b : bool) (s : FilePagedSequence) : FilePagedSequence :=
  mkFPS (_page_size s) (_cur_len s) (_cur_page_no s) (_cur_page_data s) b
        (_dir_cached s) (tmpdir s) (disk_log s).

Definition with_dir_cached (b : bool) (s : FilePagedSequence) : FilePagedSequence :=
  mkFPS (_page_size s) (_cur_len s) (_cur_page_no s) (_cur_page_data s) (_closed s)
        b (tmpdir s) (disk_log s).

Definition with_tmpdir (d : option (gmap Z (list A))) (s : FilePagedSequence) : FilePagedSequence :=
  mkFPS (_page_size s) (_cur_len s) (_cur_page_no s) (_cur_page_data s) (_closed s)
        (_dir_cached s) d (disk_log s).

Definition logged (op : disk_op) (s : FilePagedSequence) : FilePagedSequence :=
  mkFPS (_page_size s) (_cur_len s) (_cur_page_no s) (_cur_page_data s) (_closed s)
        (_dir_cached s) (tmpdir s) (disk_log s ++ [op]).

(** ** The monad of methods: state and exceptions *)

Inductive result (T : Type) : Type :=
| Ok (v : T) (s : FilePagedSequence)
| Raise (e : exn) (s : FilePagedSequence).

Arguments Ok {T} v s.
Arguments Raise {T} e s.

Definition M (T : Type) : Type := FilePagedSequence → result T.

Definition ret {T} (v : T) : M T := λ s, Ok v s.

Definition raise {T} (e : exn) : M T := λ s, Raise e s.

Definition bind {T U} (m : M T) (k : T → M U) : M U :=
  λ s, match m s with
       | Ok v s' => k v s'
       | Raise e s' => Raise e s'
       end.

Definition self : M FilePagedSequence := λ s, Ok s s.

Definition update (f : FilePagedSequence → FilePagedSequence) : M unit :=
  λ s, Ok tt (f s).

Notation "'do' x <- m ; k" := (bind m (λ x, k))
  (at level 10, x name, m at level 100, k at level 200).
Notation "'do' ' ( x , y ) <- m ; k" := (bind m (λ '(x, y), k))
  (at level 10, x name, y name, m at level 100, k at level 200).
Notation "m ;;; k" := (bind m (λ _, k))
  (at level 100, k at level 200, right associativity).

(** The state an operation leaves, whether it returned or raised. *)
Definition state_of {T} (r : result T) : FilePagedSequence :=
  match r with
  | Ok _ s => s
  | Raise _ s => s
  end.

(** ** Python built-ins used by the class *)

(** [divmod(a, b)] on integers. *)
Definition divmod (a b : Z) : M (Z * Z) :=
  if decide (b = 0) then raise ZeroDivisionError else ret (a / b, a mod b).

(** The position a list index denotes: negative indices count from the
    end; [None] when out of range. *)
Definition list_position (n : nat) (i : Z) : option nat :=
  let j := if decide (i < 0) then i + Z.of_nat n else i in
  if decide (0 ≤ j < Z.of_nat n) then Some (Z.to_nat j) else None.

(** [l[i]] *)
Definition list_getitem (l : list A) (i : Z) : M A :=
  match list_position (length l) i ≫= (l !!.) with
  | Some x => ret x
  | None => raise IndexError
  end.

(** [l[i] = v], as the new list. *)
Definition list_setitem (l : list A) (i : Z) (v : A) : M (list A) :=
  match list_position (length l) i with
  | Some j => ret (<[j := v]> l)
  | None => raise IndexError
  end.

(** [l.pop(i)], as the popped item and the remaining list. *)
Definition list_pop (l : list A) (i : Z) : M (A * list A) :=
  match list_position (length l) i ≫= (λ j, (λ x, (x, delete j l)) <$> l !! j) with
  | Some r => ret r
  | None => raise IndexError
  end.

(** ** The file system under the instance's directory *)

(** [tempfile.mkdtemp(...)]: a fresh, empty directory. *)
Definition mkdtemp : M unit :=
  update (λ s, with_tmpdir (Some ∅) (logged Mkdtemp s)).

(** [with open(fn, 'wb') as f: cPickle.dump(data, f, -1)] *)
Definition pickle_dump (data : list A) (fn : Z) : M unit :=
  update (logged (OpenWrite fn));;;
  do s <- self;
  match tmpdir s with
  | Some files => update (with_tmpdir (Some (<[fn := data]> files)))
  | None => raise IOError
  end.

(** [with open(fn, 'rb') as f: cPickle.load(f)] *)
Definition pickle_load (fn : Z) : M (list A) :=
  update (logged (OpenRead fn));;;
  do s <- self;
  match tmpdir s ≫= (.!! fn) with
  | Some data => ret data
  | None => raise IOError
  end.

(** [os.listdir(dir)] *)
Definition listdir : M (list Z) :=
  update (logged Listdir);;;
  do s <- self;
  match tmpdir s with
  | Some files => ret (map_to_list files).*1
  | None => raise OSError
  end.

(** [os.remove(osp.join(dir, fn))] *)
Definition remove (fn : Z) : M unit :=
  update (logged (Remove fn));;;
  do s <- self;
  match tmpdir s with
  | Some files =>
      if decide (is_Some (files !! fn))
      then update (with_tmpdir (Some (delete fn files)))
      else raise OSError
  | None => raise OSError
  end.

(** [os.rmdir(dir)]: only an empty directory can be removed. *)
Definition rmdir : M unit :=
  update (logged Rmdir);;;
  do s <- self;
  match tmpdir s with
  | Some files =>
      if decide (files = ∅) then update (with_tmpdir None) else raise OSError
  | None => raise OSError
  end.

(** [for x in xs: body(x)] *)
Fixpoint for_each {T} (xs : list T) (body : T → M unit) : M unit :=
  match xs with
  | [] => ret tt
  | x :: xs' => body x;;; for_each xs' body
  end.

(** ** The methods of the class *)

(** [_filesystem_used]: ['_dir' in self.__dict__]. *)
Definition _filesystem_used : M bool :=
  do s <- self; ret (_dir_cached s).

(** The reified property [_dir]: computed by [mkdtemp] at the first access
    and cached in the instance from then on. *)
Definition _dir : M unit :=
  do s <- self;
  if _dir_cached s then ret tt
  else mkdtemp;;; update (with_dir_cached true).

Definition _get_page_filename (page_no : Z) : M Z :=
  _dir;;; ret page_no.

Definition _switch_to (page_no : Z) (new : bool) : M unit :=
  do s <- self;
  match _cur_page_no s with
  | Some cur =>
      do fn <- _get_page_filename cur;
      pickle_dump (_cur_page_data s) fn
  | None => ret tt
  end;;;
  (if new then
     update (with_cur_page_data [])
   else
     do fn <- _get_page_filename page_no;
     do data <- pickle_load fn;
     update (with_cur_page_data data));;;
  update (with_cur_page_no (Some page_no)).

Definition _local_index (index : pyindex) : M Z :=
  match index with
  | Slice => raise NotImplementedError
  | Int index =>
      do s <- self;
      let index := if decide (index < 0) then _cur_len s + index else index in
      if decide (0 ≤ index < _cur_len s) then
        do '(page_no, local_index) <- divmod index (_page_size s);
        (if decide (Some page_no ≠ _cur_page_no s)
         then _switch_to page_no false else ret tt);;;
        ret local_index
      else raise IndexError
  end.

Definition __len__ : M Z :=
  do s <- self; ret (_cur_len s).

Definition __getitem__ (index : pyindex) : M A :=
  do local_index <- _local_index index;
  do s <- self;
  list_getitem (_cur_page_data s) local_index.

Definition __setitem__ (index : pyindex) (value : A) : M unit :=
  do local_index <- _local_index index;
  do s <- self;
  do data <- list_setitem (_cur_page_data s) local_index value;
  update (with_cur_page_data data).

Definition append (value : A) : M unit :=
  do s <- self;
  do '(page_no, local_index) <- divmod (_cur_len s) (_page_size s);
  (if decide (Some page_no ≠ _cur_page_no s)
   then _switch_to page_no (bool_decide (local_index = 0)) else ret tt);;;
  do s <- self;
  update (with_cur_page_data (_cur_page_data s ++ [value]));;;
  do s <- self;
  update (with_cur_len (_cur_len s + 1)).

(** [pop(index=-1)] *)
Definition pop (index : pyindex) : M A :=
  if decide (index ≠ Int (-1)) then raise NotImplementedError
  else
    do local_index <- _local_index (Int (-1));
    do s <- self;
    do '(value, data) <- list_pop (_cur_page_data s) local_index;
    update (with_cur_page_data data);;;
    do s <- self;
    update (with_cur_len (_cur_len s - 1));;;
    ret value.

Definition __delitem__ (index : pyindex) : M unit := raise NotImplementedError.

Definition insert (index : pyindex) (value : A) : M unit := raise NotImplementedError.

Definition reverse : M unit := raise NotImplementedError.

Definition sort : M unit := raise NotImplementedError.

Definition clear : M unit :=
  update (with_cur_page_data []);;;
  update (with_cur_page_no None);;;
  update (with_cur_len 0).

Definition close : M unit :=
  do s <- self;
  if negb (_closed s) then
    clear;;;
    do used <- _filesystem_used;
    (if used then
       _dir;;;
       do filenames <- listdir;
       for_each filenames (λ filename, _dir;;; remove filename);;;
       _dir;;;
       rmdir
     else ret tt);;;
    update (with_closed true)
  else ret tt.

Definition __enter__ : M unit := ret tt.

Definition __exit__ : M unit := close.

(** [MutableSequence.extend], the mixin method the class inherits:
    [for v in values: self.append(v)]. *)
Definition extend (values : list A) : M unit :=
  for_each values append.

(** [Sequence.__iter__], the mixin method the class inherits, run to its
    end as [list(seq)] does: items [self[0]], [self[1]], ... are collected
    until [self[i]] raises [IndexError]; any other exception propagates.
    The loop is unbounded in the source, hence the fuel ([None]: the fuel
    ran out before the loop ended). *)
Fixpoint iter_from (fuel : nat) (i : Z) (acc : list A)
    (s : FilePagedSequence) : option (result (list A)) :=
  match fuel with
  | O => None
  | S fuel' =>
      match __getitem__ (Int i) s with
      | Ok v s' => iter_from fuel' (i + 1) (acc ++ [v]) s'
      | Raise IndexError s' => Some (Ok acc s')
      | Raise e s' => Some (Raise e s')
      end
  end.

Definition iterate (fuel : nat) : FilePagedSequence → option (result (list A)) :=
  iter_from fuel 0 [].

(** A new instance, before [__init__] runs: no attribute, no directory. *)
Definition new_instance (page_size : Z) : FilePagedSequence :=
  mkFPS page_size 0 None [] false false None [].

(** [FilePagedSequence(iterable, page_size)] *)
Definition __init__ (iterable : list A) (page_size : Z) : result unit :=
  extend iterable (new_instance page_size).

End FilePagedSequence.

Arguments FilePagedSequence : clear implicits.
Arguments result : clear implicits.
Arguments M : clear implicits.
Arguments Ok {A T} v s.
Arguments Raise {A T} e s.

(** ** Vocabulary of the specification *)

Section Vocabulary.

Context {A : Type}.
Implicit Types (s : FilePagedSequence A) (l : list A).

(** Page [k] of a list: the run of (at most) [ps] items that starts at
    position [k * ps]. *)
Definition page_of (ps : Z) (l : list A) (k : Z) : list A :=
  take (Z.to_nat ps) (drop (Z.to_nat (k * ps)) l).

(** The file of page [k], if the directory and the file exist. *)
Definition page_file (s : FilePagedSequence A) (k : Z) : option (list A) :=
  tmpdir s ≫= (.!! k).

(** The effective position of an integer index in a sequence of length
    [n]: negative indices count from the end. *)
Definition effective (n i : Z) : Z := if decide (i < 0) then n + i else i.

(** A live (not closed) instance [s] holds the list [l]: the resident page
    is its page of [l], every other page of [l] is in its page file, and
    the directory is there once [_dir] has been computed, its first use
    having been the saving of a page. *)
Record represents (s : FilePagedSequence A) (l : list A) : Prop := {
  rep_page_size : 1 ≤ _page_size s;
  rep_len : _cur_len s = Z.of_nat (length l);
  rep_resident :
    match _cur_page_no s with
    | Some r => 0 ≤ r ∧ r * _page_size s ≤ _cur_len s ∧
                _cur_page_data s = page_of (_page_size s) l r
    | None => _cur_len s = 0 ∧ _cur_page_data s = []
    end;
  rep_files : ∀ k, 0 ≤ k → k * _page_size s < _cur_len s →
    _cur_page_no s ≠ Some k → page_file s k = Some (page_of (_page_size s) l k);
  rep_open : _closed s = false;
  rep_dir :
    if _dir_cached s
    then is_Some (tmpdir s) ∧ ∃ p ops, disk_log s = Mkdtemp :: OpenWrite p :: ops
    else tmpdir s = None ∧ disk_log s = []
}.

(** The states a live instance goes through: built by the constructor
    with a positive page size, then used through its methods, whether a
    call returns or raises.  [close] ends the life of an instance (the
    docstring: call it when you no longer use the sequence) and is not
    among them; the methods that always raise [NotImplementedError] and
    [__len__] leave the state as it is. *)
Inductive reachable : FilePagedSequence A → Prop :=
| reach_init iterable page_size s :
    1 ≤ page_size → __init__ iterable page_size = Ok tt s → reachable s
| reach_getitem s index :
    reachable s → reachable (state_of (__getitem__ index s))
| reach_setitem s index value :
    reachable s → reachable (state_of (__setitem__ index value s))
| reach_append s value :
    reachable s → reachable (state_of (append value s))
| reach_extend s values :
    reachable s → reachable (state_of (extend values s))
| reach_pop s index :
    reachable s → reachable (state_of (pop index s))
| reach_clear s :
    reachable s → reachable (state_of (clear s))
| reach_iterate s fuel r :
    reachable s → iterate fuel s = Some r → reachable (state_of r).

(** The observable content of an instance: what iterating over it
    yields. *)
Definition content (s : FilePagedSequence A) (l : list A) : Prop :=
  ∃ fuel s', iterate fuel s = Some (Ok l s').

(** The state after a series of reads [self[k]], one per index. *)
Definition after_reads (ks : list Z) (s : FilePagedSequence A) : FilePagedSequence A :=
  foldl (λ s k, state_of (__getitem__ (Int k) s)) s ks.

End Vocabulary.

(** ** Sample runs *)

(** A call made on what an earlier call left, if that one returned. *)
Definition and_then {A T U} (r : result A T) (m : M A U) : result A U :=
  match r with
  | Ok _ s => m s
  | Raise e s => Raise e s
  end.

(** The doctest's sequence: four items, three to a page. *)
Definition doctest_seq : FilePagedSequence nat :=
  state_of (__init__ [1; 2; 3; 4]%nat 3).

(** The names of the page files in the directory, when there is one. *)
Definition page_files {A} (s : FilePagedSequence A) : option (gset Z) :=
  dom <$> tmpdir s.

(** ** Tactics *)

(** One step of a method: unfold the monad. *)
Ltac run := unfold bind, self, update, ret, raise; simpl.

(** The disk log keeps its first two entries when it grows. *)
Ltac log_goal Hlog := rewrite Hlog; simpl; eauto.

(** The two facts the witnesses start from, both by evaluation: the
    doctest's sequence is built by the constructor, and iterating over it
    yields its four items. *)
Ltac doctest_seq_reachable :=
  apply (reach_init [1; 2; 3; 4]%nat 3); [lia|vm_compute; reflexivity].

Ltac doctest_seq_content :=
  eexists 5%nat, _; vm_compute; reflexivity.

(** * The rest of the module

    The method [__reversed__] of the class, what its methods leave on
    the disk, and other helpers of [n6lib.common_helpers]:
    [limit_string], [replace_segment], [int_id_to_hex] and the
    dictionaries [LimitedDict], [NormalizedDict] and [CIDict]. *)

(** ** [FilePagedSequence.__reversed__] and loops of a caller *)

Section MoreMethods.

Context {A : Type}.

(** [xrange(start, -1, -1)]: [start, start - 1, ..., 0]. *)
Definition xrange_down (start : Z) : list Z :=
  Z.of_nat <$> rev (seq 0 (Z.to_nat (start + 1))).

(** The items a generator yields, when it is run to its end: for each
    index in turn, [yield self[i]]. *)
Fixpoint yield_items (indices : list Z) (acc : list A) : M A (list A) :=
  match indices with
  | [] => ret acc
  | i :: indices' =>
      bind (__getitem__ (Int i)) (λ v, yield_items indices' (acc ++ [v]))
  end.

Definition __reversed__ : M A (list A) :=
  bind __len__ (λ n, yield_items (xrange_down (n - 1)) []).

(** A caller's loop: [n] times [seq.pop()], collecting the results. *)
Fixpoint pops (n : nat) (acc : list A) : M A (list A) :=
  match n with
  | O => ret acc
  | S n' => bind (pop (Int (-1))) (λ v, pops n' (acc ++ [v]))
  end.

(** *** Building a sequence item by item: what reaches the disk *)

(** What the disk has seen once the pages before page [r] have been left
    behind, one after the other. *)
Definition pages_written (r : Z) : list disk_op :=
  if decide (r ≤ 0) then [] else Mkdtemp :: (OpenWrite <$> seqZ 0 r).

(** [s] has been filled by appending alone, up to [n] items. *)
Record appended_only (s : FilePagedSequence A) (n : Z) : Prop := {
  ao_page_size : 1 ≤ _page_size s;
  ao_len : _cur_len s = n;
  ao_nonneg : 0 ≤ n;
  ao_page : _cur_page_no s = if decide (n = 0) then None else Some ((n - 1) `div` _page_size s);
  ao_cached : _dir_cached s = bool_decide (0 < (n - 1) `div` _page_size s);
  ao_tmpdir : 0 < (n - 1) `div` _page_size s → is_Some (tmpdir s);
  ao_log : disk_log s = pages_written ((n - 1) `div` _page_size s)
}.

End MoreMethods.

(** ** The other helpers: exceptions *)

(** The exceptions of the helpers below; [Builtin] is for the ones a list
    operation raises. *)
Inductive exception : Type :=
| ValueError
| KeyError
| TypeError
| AssertionError
| Builtin (e : exn).

(** ** [limit_string] *)

Section Strings.

Context {char : Type}.

(** [s[:n]] *)
Definition slice_to (s : list char) (n : Z) : list char :=
  take (Z.to_nat (if decide (n < 0) then Z.of_nat (length s) + n else n)) s.

(** [s[n:]] *)
Definition slice_from (s : list char) (n : Z) : list char :=
  drop (Z.to_nat (if decide (n < 0) then Z.of_nat (length s) + n else n)) s.

Definition limit_string (s : list char) (char_limit : Z)
    (cut_indicator : list char) (middle_cut : bool) : exception + list char :=
  let real_limit := char_limit - Z.of_nat (length cut_indicator) in
  if decide (real_limit < 0) then inl ValueError
  else if decide (Z.of_nat (length s) > char_limit) then
    let right_limit := real_limit `div` 2 in
    let odd := real_limit `mod` 2 in
    if middle_cut && negb (right_limit =? 0) then
      let left_limit := right_limit + odd in
      inr (slice_to s left_limit ++ cut_indicator ++ slice_from s (- right_limit))
    else
      inr (slice_to s real_limit ++ cut_indicator)
  else inr s.

End Strings.

(** ** [replace_segment] *)

Section Segments.

Context {char : Type} `{EqDecision char}.

(** The scan of [str.split(sep)] for a non-empty [sep], from left to
    right: [cur] is the segment being read, [skip] the number of
    characters of a separator just found that are still to be passed. *)
Fixpoint split_scan (sep s cur : list char) (skip : nat) : list (list char) :=
  match s with
  | [] => [cur]
  | c :: s' =>
      match skip with
      | S skip' => split_scan sep s' cur skip'
      | O =>
          if decide (sep `prefix_of` c :: s')
          then cur :: split_scan sep s' [] (length sep - 1)
          else split_scan sep s' (cur ++ [c]) 0
      end
  end.

(** [s.split(sep)] *)
Definition str_split (s sep : list char) : exception + list (list char) :=
  match sep with
  | [] => inl ValueError
  | _ => inr (split_scan sep s [] 0)
  end.

(** [sep.join(segments)] *)
Fixpoint str_join (sep : list char) (segments : list (list char)) : list char :=
  match segments with
  | [] => []
  | [seg] => seg
  | seg :: segments' => seg ++ sep ++ str_join sep segments'
  end.

Definition replace_segment (a_string : list char) (segment_index : Z)
    (new_content sep : list char) : exception + list char :=
  match str_split a_string sep with
  | inl e => inl e
  | inr segments =>
      match list_position (length segments) segment_index with
      | None => inl (Builtin IndexError)
      | Some j => inr (str_join sep (<[j := new_content]> segments))
      end
  end.

End Segments.

(** ** [LimitedDict] *)

Section LimitedDict.

Context {K V : Type} `{EqDecision K}.

(** [collections.OrderedDict], as the list of its items in insertion
    order (keys are unique). *)

(** [OrderedDict.__setitem__]: a new key goes to the end, a known key
    keeps its place and gets the new value. *)
Definition od_setitem (key : K) (value : V) (items : list (K * V)) : list (K * V) :=
  if decide (key ∈ items.*1)
  then (λ kv, if decide (kv.1 = key) then (kv.1, value) else kv) <$> items
  else items ++ [(key, value)].

(** [OrderedDict.__getitem__] *)
Fixpoint od_getitem (key : K) (items : list (K * V)) : exception + V :=
  match items with
  | [] => inl KeyError
  | (k, v) :: items' => if decide (k = key) then inr v else od_getitem key items'
  end.

(** [OrderedDict.popitem(last=False)] *)
Definition od_popitem_first (items : list (K * V)) : exception + (K * V) * list (K * V) :=
  match items with
  | [] => inl KeyError
  | kv :: items' => inr (kv, items')
  end.

Record LimitedDict : Type := mkLimitedDict {
  _maxlen : Z;
  od_items : list (K * V)
}.

(** [LimitedDict.__setitem__] *)
Definition ld_setitem (key : K) (value : V) (self : LimitedDict) : exception + LimitedDict :=
  let items := od_setitem key value (od_items self) in
  if decide (Z.of_nat (length items) > _maxlen self) then
    match od_popitem_first items with
    | inl e => inl e
    | inr (_, items') => inr (mkLimitedDict (_maxlen self) items')
    end
  else inr (mkLimitedDict (_maxlen self) items).

(** [MutableMapping.update] with the items to set, in the order they are
    processed: [for key, value in pairs: self[key] = value]. *)
Fixpoint ld_update (pairs : list (K * V)) (self : LimitedDict) : exception + LimitedDict :=
  match pairs with
  | [] => inr self
  | (key, value) :: pairs' =>
      match ld_setitem key value self with
      | inl e => inl e
      | inr self' => ld_update pairs' self'
      end
  end.

(** [LimitedDict(pairs, maxlen=...)]; [maxlen] is a keyword-only argument
    that must be given. *)
Definition ld_init (pairs : list (K * V)) (maxlen : option Z) : exception + LimitedDict :=
  match maxlen with
  | None => inl TypeError
  | Some maxlen => ld_update pairs (mkLimitedDict maxlen [])
  end.

(** [LimitedDict.fromkeys(iterable, value, maxlen=...)] *)
Definition ld_fromkeys (iterable : list K) (value : V) (maxlen : option Z) :
    exception + LimitedDict :=
  match maxlen with
  | None => inl TypeError
  | Some maxlen =>
      match ld_init [] (Some maxlen) with
      | inl e => inl e
      | inr self => ld_update ((λ key, (key, value)) <$> iterable) self
      end
  end.

(** [update] with a mapping: [for key in other: self[key] = other[key]]. *)
Fixpoint ld_update_from (keys : list K) (other : list (K * V)) (self : LimitedDict) :
    exception + LimitedDict :=
  match keys with
  | [] => inr self
  | key :: keys' =>
      match od_getitem key other with
      | inl e => inl e
      | inr value =>
          match ld_setitem key value self with
          | inl e => inl e
          | inr self' => ld_update_from keys' other self'
          end
      end
  end.

(** [LimitedDict.copy]: [self.__class__(self, maxlen=self._maxlen)] *)
Definition ld_copy (self : LimitedDict) : exception + LimitedDict :=
  ld_update_from (od_items self).*1 (od_items self) (mkLimitedDict (_maxlen self) []).

(** A well-formed dict: unique keys, no more than [maxlen] items. *)
Definition ld_wf (self : LimitedDict) : Prop :=
  NoDup (od_items self).*1 ∧ Z.of_nat (length (od_items self)) ≤ _maxlen self.

End LimitedDict.

Arguments LimitedDict : clear implicits.

(** ** [NormalizedDict] and [CIDict] *)

Section NormalizedDict.

Context {K NK V : Type} `{Countable NK} `{EqDecision V}.

(** The abstract method [normalize_key] of a concrete subclass. *)
Variable normalize_key : K → NK.

(** [self._mapping]: normalized key -> (key as given, value). *)
Record NormalizedDict : Type := mkNormalizedDict {
  _mapping : gmap NK (K * V)
}.

Definition nd_getitem (key : K) (self : NormalizedDict) : exception + V :=
  let nkey := normalize_key key in
  match _mapping self !! nkey with
  | Some kv => inr kv.2
  | None => inl KeyError
  end.

Definition nd_setitem (key : K) (value : V) (self : NormalizedDict) : NormalizedDict :=
  let nkey := normalize_key key in
  mkNormalizedDict (<[nkey := (key, value)]> (_mapping self)).

Definition nd_delitem (key : K) (self : NormalizedDict) : exception + NormalizedDict :=
  let nkey := normalize_key key in
  match _mapping self !! nkey with
  | Some _ => inr (mkNormalizedDict (delete nkey (_mapping self)))
  | None => inl KeyError
  end.

Definition nd_len (self : NormalizedDict) : Z := Z.of_nat (size (_mapping self)).

(** The iteration order of the underlying dict is the one of
    [map_to_list]. *)
Definition nd_items (self : NormalizedDict) : list (K * V) :=
  (map_to_list (_mapping self)).*2.

Definition nd_keys (self : NormalizedDict) : list K := (nd_items self).*1.

Definition nd_values (self : NormalizedDict) : list V := (nd_items self).*2.

Definition nd_normalized_items (self : NormalizedDict) : list (NK * V) :=
  (λ entry, (entry.1, entry.2.2)) <$> map_to_list (_mapping self).

(** [dict(pairs)] *)
Definition dict (pairs : list (NK * V)) : gmap NK V :=
  foldl (λ d kv, <[kv.1 := kv.2]> d) ∅ pairs.

(** [__eq__], for [other] an instance of the same class. *)
Definition nd_eq (self other : NormalizedDict) : bool :=
  bool_decide (dict (nd_normalized_items self) = dict (nd_normalized_items other)).

(** [MutableMapping.update] with an iterable of pairs. *)
Definition nd_update (pairs : list (K * V)) (self : NormalizedDict) : NormalizedDict :=
  foldl (λ self kv, nd_setitem kv.1 kv.2 self) self pairs.

(** [MutableMapping.update] with a mapping:
    [for key in other: self[key] = other[key]]. *)
Fixpoint nd_update_keys (keys : list K) (other self : NormalizedDict) :
    exception + NormalizedDict :=
  match keys with
  | [] => inr self
  | key :: keys' =>
      match nd_getitem key other with
      | inl e => inl e
      | inr value => nd_update_keys keys' other (nd_setitem key value self)
      end
  end.

Definition nd_update_from (other self : NormalizedDict) : exception + NormalizedDict :=
  nd_update_keys (nd_keys other) other self.

Definition nd_init (pairs : list (K * V)) : NormalizedDict :=
  nd_update pairs (mkNormalizedDict ∅).

Definition nd_copy (self : NormalizedDict) : exception + NormalizedDict :=
  nd_update_from self (mkNormalizedDict ∅).

Definition nd_clear (self : NormalizedDict) : NormalizedDict := mkNormalizedDict ∅.

Definition nd_fromkeys (seq : list K) (value : V) : NormalizedDict :=
  nd_init ((λ key, (key, value)) <$> seq).

(** Every entry is filed under the normal form of its own key. *)
Definition nd_wf (self : NormalizedDict) : Prop :=
  ∀ nkey kv, _mapping self !! nkey = Some kv → normalize_key kv.1 = nkey.

(** The dicts one can get through the methods. *)
Inductive nd_reachable : NormalizedDict → Prop :=
| nd_reach_init pairs : nd_reachable (nd_init pairs)
| nd_reach_setitem key value self :
    nd_reachable self → nd_reachable (nd_setitem key value self)
| nd_reach_delitem key self self' :
    nd_reachable self → nd_delitem key self = inr self' → nd_reachable self'
| nd_reach_update pairs self :
    nd_reachable self → nd_reachable (nd_update pairs self)
| nd_reach_copy self self' :
    nd_reachable self → nd_copy self = inr self' → nd_reachable self'
| nd_reach_clear self : nd_reachable self → nd_reachable (nd_clear self).

End NormalizedDict.

Arguments NormalizedDict : clear implicits.
Arguments NormalizedDict _ _ _ {_ _}.
Arguments mkNormalizedDict {K NK V _ _} _mapping.

(** A [str], as the list of its characters. *)
Definition str : Type := list Ascii.ascii.

Definition str_of (literal : String.string) : str := String.list_ascii_of_string literal.

(** [str.lower], for ASCII letters (the C locale). *)
Definition ascii_lower (c : Ascii.ascii) : Ascii.ascii :=
  let n := Ascii.N_of_ascii c in
  if decide (65 ≤ n ≤ 90)%N then Ascii.ascii_of_N (n + 32) else c.

Definition str_lower (s : str) : str := ascii_lower <$> s.

Module CIDict.

(** [CIDict.normalize_key]: the base class gives the key back, then
    [key.lower()]. *)
Definition normalize_key (key : str) : str := str_lower key.

End CIDict.

Definition cidict_sample : NormalizedDict str str Z :=
  nd_init CIDict.normalize_key [(str_of "Aa", 1); (str_of "cC", 3)].

(** ** [int_id_to_hex] *)

(** A Python 2 integer: an [int] or a [long]. *)
Inductive pyint : Type :=
| PyInt (n : Z)
| PyLong (n : Z).

Definition int_value (x : pyint) : Z :=
  match x with PyInt n | PyLong n => n end.

Definition hex_digit (d : Z) : Ascii.ascii :=
  match d with
  | 0 => "0" | 1 => "1" | 2 => "2" | 3 => "3" | 4 => "4" | 5 => "5" | 6 => "6"
  | 7 => "7" | 8 => "8" | 9 => "9" | 10 => "a" | 11 => "b" | 12 => "c"
  | 13 => "d" | 14 => "e" | _ => "f"
  end%char.

(** The hexadecimal digits of [n], most significant first, in front of
    [acc]; [fuel] bounds the number of digits. *)
Fixpoint hex_digits (fuel : nat) (n : Z) (acc : str) : str :=
  let acc' := hex_digit (n `mod` 16) :: acc in
  match fuel with
  | O => acc'
  | S fuel' => if decide (n `div` 16 = 0) then acc' else hex_digits fuel' (n `div` 16) acc'
  end.

(** The builtin [hex]: sign, ["0x"], the digits, and ["L"] for a [long]. *)
Definition hex (x : pyint) : str :=
  let n := int_value x in
  (if decide (n < 0) then ["-"%char] else []) ++
  ["0"; "x"]%char ++ hex_digits (Z.to_nat (Z.log2 (Z.abs n))) (Z.abs n) [] ++
  match x with PyInt _ => [] | PyLong _ => ["L"%char] end.

(** [s.lstrip(c)] and [s.rstrip(c)], for a single character [c]. *)
Fixpoint lstrip (c : Ascii.ascii) (s : str) : str :=
  match s with
  | [] => []
  | c' :: s' => if decide (c' = c) then lstrip c s' else s
  end.

Definition rstrip (c : Ascii.ascii) (s : str) : str :=
  rev (lstrip c (rev s)).

(** [s.rjust(width, fillchar)] *)
Definition rjust (s : str) (width : Z) (fillchar : Ascii.ascii) : str :=
  replicate (Z.to_nat (width - Z.of_nat (length s))) fillchar ++ s.

Definition int_id_to_hex (int_id : pyint) (min_digit_num : Z) : exception + str :=
  let hex_id := hex int_id in
  if decide (take 2 hex_id = ["0"; "x"]%char) then
    let hex_id := rstrip "L" (drop 2 hex_id) in
    let hex_id := rjust hex_id min_digit_num "0" in
    inr hex_id
  else inl AssertionError.

(** The number a string of lowercase hexadecimal digits stands for;
    [None] when some character is no such digit. *)
Definition hex_digit_value (c : Ascii.ascii) : option Z :=
  let n := Z.of_N (Ascii.N_of_ascii c) in
  if decide (48 ≤ n ≤ 57) then Some (n - 48)
  else if decide (97 ≤ n ≤ 102) then Some (n - 87)
  else None.

Definition hex_value (s : str) : option Z :=
  foldl (λ acc c, a ← acc; d ← hex_digit_value c; Some (16 * a + d)) (Some 0) s.

(** * Proofs *)

(** ** The model run on the docstring's examples *)

(** The docstring's [seq2]: no disk operation while the items fit one
    page, then one page file more each time a page is left. *)
Example doctest_seq2_run :
  let r0 := __init__ [1; 2; 3]%nat 3 in
  let r1 := and_then r0 (extend [4]%nat) in
  let r2 := and_then r1 (extend [5; 6]%nat) in
  let r3 := and_then r2 (extend [7]%nat) in
  let r4 := and_then r3 (__getitem__ (Int 0)) in
  let r5 := and_then r4 (pop (Int (-1))) in
  let r6 := and_then r5 clear in
  let r7 := and_then r6 close in
  and_then r0 _filesystem_used = Ok false (state_of r0) ∧
  and_then r1 _filesystem_used = Ok true (state_of r1) ∧
  page_files (state_of r1) = Some {[0]} ∧
  page_files (state_of r2) = Some {[0]} ∧
  page_files (state_of r3) = Some {[0; 1]} ∧
  r4 = Ok 1%nat (state_of r4) ∧
  page_files (state_of r4) = Some {[0; 1; 2]} ∧
  r5 = Ok 7%nat (state_of r5) ∧
  page_files (state_of r5) = Some {[0; 1; 2]} ∧
  page_files (state_of r6) = Some {[0; 1; 2]} ∧
  and_then r7 _filesystem_used = Ok true (state_of r7) ∧
  page_files (state_of r7) = None ∧
  iterate 1 (state_of r7) = Some (Ok [] (state_of r7)).
Proof. vm_compute. repeat split. Qed.

(** The docstring's [seq]: reads across the page boundary, [append] and
    [pop], and indices out of range. *)
Example doctest_seq_run :
  let r0 := __init__ [1; 2; 3; 4]%nat 3 in
  let r1 := and_then r0 (__getitem__ (Int 0)) in
  let r2 := and_then r1 (__getitem__ (Int (-1))) in
  let r3 := and_then r2 (__getitem__ (Int 2)) in
  let r4 := and_then r3 (__getitem__ (Int (-2))) in
  let r5 := and_then r4 (append 42%nat) in
  let r6 := and_then r5 (pop (Int (-1))) in
  let r7 := and_then r6 (__getitem__ (Int 4)) in
  let r8 := and_then r6 (__getitem__ (Int (-5))) in
  and_then r0 __len__ = Ok 4 (state_of r0) ∧
  r1 = Ok 1%nat (state_of r1) ∧
  r2 = Ok 4%nat (state_of r2) ∧
  r3 = Ok 3%nat (state_of r3) ∧
  r4 = Ok 3%nat (state_of r4) ∧
  (∃ s, iterate 6 (state_of r5) = Some (Ok [1; 2; 3; 4; 42]%nat s)) ∧
  r6 = Ok 42%nat (state_of r6) ∧
  r7 = Raise IndexError (state_of r6) ∧
  r8 = Raise IndexError (state_of r6).
Proof. vm_compute. repeat split. by eexists. Qed.

(** A closed sequence is not meant to be used again: its directory is
    gone and [_dir] still cached, so the first page swap fails. *)
Example use_after_close_run :
  let r0 := __init__ [1; 2; 3; 4]%nat 3 in
  let r1 := and_then r0 close in
  let r2 := and_then r1 (extend [1; 2; 3]%nat) in
  let r3 := and_then r2 (append 4%nat) in
  r2 = Ok tt (state_of r2) ∧
  r3 = Raise IOError (state_of r3) ∧
  _closed (state_of r2) = true ∧ tmpdir (state_of r2) = None.
Proof. vm_compute. repeat split. Qed.

(** A negative page size is accepted too: with [-1] the pages are
    numbered [0, -1, -2, ...] and everything works; with [-3] the second
    [append] looks for a page file [-1] that was never written. *)
Example negative_page_size_run :
  let r0 := __init__ [1; 2; 3]%nat (-1) in
  let r1 := and_then r0 (__getitem__ (Int 1)) in
  let r2 := __init__ [1; 2; 3]%nat (-3) in
  r1 = Ok 2%nat (state_of r1) ∧
  page_files (state_of r1) = Some {[0; -1; -2]} ∧
  r2 = Raise IOError (state_of r2).
Proof. vm_compute. repeat split. Qed.

(** ** Pages of a list *)

Section Pages.

Context {A : Type}.
Implicit Types (l : list A) (ps k i : Z) (n : nat).

Lemma lookup_page_of ps l k n :
  page_of ps l k !! n =
    if decide (n < Z.to_nat ps)%nat then l !! (Z.to_nat (k * ps) + n)%nat else None.
Proof.
  unfold page_of. case_decide.
  - rewrite lookup_take_lt by done. by rewrite lookup_drop.
  - apply lookup_take_ge. lia.
Qed.

Lemma length_page_of ps l k :
  length (page_of ps l k) = (Z.to_nat ps `min` (length l - Z.to_nat (k * ps)))%nat.
Proof. unfold page_of. by rewrite length_take, length_drop. Qed.

Lemma page_of_beyond ps l k :
  Z.of_nat (length l) ≤ k * ps → page_of ps l k = [].
Proof.
  intros. apply length_zero_iff_nil. rewrite length_page_of. lia.
Qed.

(** [divmod] of a non-negative index by a positive page size. *)
Lemma divmod_bounds i ps :
  0 ≤ i → 1 ≤ ps →
  0 ≤ i `div` ps ∧ 0 ≤ i `mod` ps < ps ∧ i = i `div` ps * ps + i `mod` ps.
Proof.
  intros Hi Hps. split; [apply Z.div_pos; lia|].
  split; [apply Z.mod_pos_bound; lia|].
  rewrite (Z.mul_comm _ ps). apply Z.div_mod. lia.
Qed.

Lemma page_of_app_last ps l k x :
  1 ≤ ps → 0 ≤ k → k * ps ≤ Z.of_nat (length l) < k * ps + ps →
  page_of ps (l ++ [x]) k = page_of ps l k ++ [x].
Proof.
  intros Hps Hk Hl. unfold page_of.
  assert (Hd : (length (drop (Z.to_nat (k * ps)) l) < Z.to_nat ps)%nat)
    by (rewrite length_drop; lia).
  rewrite drop_app_le by lia.
  rewrite take_app_ge by lia.
  rewrite (take_ge (drop _ l)) by lia.
  f_equal. apply take_ge. simpl. lia.
Qed.

Lemma page_of_app_full ps l l' k :
  1 ≤ ps → 0 ≤ k → k * ps + ps ≤ Z.of_nat (length l) →
  page_of ps (l ++ l') k = page_of ps l k.
Proof.
  intros Hps Hk Hl. unfold page_of.
  assert (Hd : (Z.to_nat ps ≤ length (drop (Z.to_nat (k * ps)) l))%nat)
    by (rewrite length_drop; lia).
  rewrite drop_app_le by lia.
  by rewrite take_app_le.
Qed.

Lemma page_of_insert_same ps l e v :
  1 ≤ ps → 0 ≤ e →
  page_of ps (<[Z.to_nat e := v]> l) (e `div` ps) =
    <[Z.to_nat (e `mod` ps) := v]> (page_of ps l (e `div` ps)).
Proof.
  intros Hps He. destruct (divmod_bounds e ps He Hps) as (Hk & Hli & Heq).
  unfold page_of.
  rewrite drop_insert_ge by lia.
  rewrite take_insert_lt by lia. do 2 f_equal. lia.
Qed.

Lemma page_of_insert_other ps l e v k :
  1 ≤ ps → 0 ≤ e → 0 ≤ k → k ≠ e `div` ps →
  page_of ps (<[Z.to_nat e := v]> l) k = page_of ps l k.
Proof.
  intros Hps He Hk Hne. destruct (divmod_bounds e ps He Hps) as (Hk' & Hli & Heq).
  unfold page_of.
  destruct (decide (k < e `div` ps)).
  - rewrite drop_insert_ge by nia. rewrite take_insert_ge by nia. done.
  - rewrite drop_insert_lt by nia. done.
Qed.

Lemma page_of_position ps l e :
  1 ≤ ps → 0 ≤ e < Z.of_nat (length l) →
  list_position (length (page_of ps l (e `div` ps))) (e `mod` ps) = Some (Z.to_nat (e `mod` ps)) ∧
  page_of ps l (e `div` ps) !! Z.to_nat (e `mod` ps) = l !! Z.to_nat e.
Proof.
  intros Hps He. destruct (divmod_bounds e ps (proj1 He) Hps) as (Hk & Hli & Heq).
  split.
  - unfold list_position. rewrite length_page_of.
    repeat case_decide; (done || lia).
  - rewrite lookup_page_of. rewrite decide_True by lia. f_equal. lia.
Qed.
End Pages.

(** ** Page swaps keep the representation *)

Section Core.
Context {A : Type}.
Implicit Types (s : FilePagedSequence A) (l : list A).

Lemma represents_tmpdir s l k :
  represents s l → 0 ≤ k → k * _page_size s < _cur_len s → _cur_page_no s ≠ Some k →
  ∃ files, tmpdir s = Some files ∧ _dir_cached s = true ∧ files !! k = Some (page_of (_page_size s) l k).
Proof.
  intros R ? ? ?. pose proof (rep_files _ _ R k) as F. unfold page_file in F.
  destruct (tmpdir s) as [files|] eqn:E; [|by (discriminate F)].
  exists files. split; [done|]. split; [|by apply F].
  pose proof (rep_dir _ _ R) as D. destruct (_dir_cached s); [done|].
  destruct D; congruence.
Qed.


Lemma _switch_to_load s l k :
  represents s l → 0 ≤ k → k * _page_size s < _cur_len s → _cur_page_no s ≠ Some k →
  ∃ s', _switch_to k false s = Ok tt s' ∧ represents s' l ∧
        _cur_page_no s' = Some k ∧ _page_size s' = _page_size s.
Proof.
  intros R Hk Hlt Hne.
  destruct (represents_tmpdir _ _ _ R Hk Hlt Hne) as (files & Hd & Hc & Hf).
  pose proof (rep_resident _ _ R) as Hr.
  pose proof (rep_dir _ _ R) as Hdir. rewrite Hc in Hdir. destruct Hdir as [_ (p & ops & Hlog)].
  unfold _switch_to, _get_page_filename, _dir, pickle_dump, pickle_load. run.
  destruct (_cur_page_no s) as [r|] eqn:Er; run; rewrite ?Hc; run; rewrite ?Hd; run;
   rewrite ?Hc; run.
  - assert (r ≠ k) by congruence. rewrite lookup_insert_ne by done. rewrite Hf. run.
    eexists; split; [done|]. split; [|done].
    destruct R as [? ? _ Hfiles ? _]. split; simpl; try done.
    + split; [done|]. split; [lia|done].
    + intros j Hj Hjlt Hjne. unfold page_file. simpl.
      destruct (decide (j = r)) as [->|].
      * rewrite lookup_insert_eq. f_equal. tauto.
      * rewrite lookup_insert_ne by done. specialize (Hfiles j). 
        unfold page_file in *. rewrite Hd in *. apply Hfiles; congruence.
    + rewrite Hc. split; [done|]. log_goal Hlog.
  - rewrite Hf. run. eexists; split; [done|]. split; [|done].
    destruct R as [? ? _ Hfiles ? _]. split; simpl; try done.
    + split; [done|]. split; [lia|done].
    + intros j Hj Hjlt Hjne. lia.
    + rewrite Hc. split; [done|]. log_goal Hlog.
Qed.

Lemma _switch_to_new s l k :
  represents s l → 0 ≤ k → k * _page_size s = _cur_len s → _cur_page_no s ≠ Some k →
  ∃ s', _switch_to k true s = Ok tt s' ∧ represents s' l ∧
        _cur_page_no s' = Some k ∧ _page_size s' = _page_size s.
Proof.
  intros R Hk Hlt Hne.
  pose proof (rep_resident _ _ R) as Hr.
  pose proof (rep_dir _ _ R) as Hdir.
  assert (Hres : 0 ≤ k ∧ k * _page_size s ≤ _cur_len s ∧ [] = page_of (_page_size s) l k).
  { split; [done|]. split; [lia|]. symmetry. apply page_of_beyond. destruct R. lia. }
  unfold _switch_to, _get_page_filename, _dir, pickle_dump, mkdtemp. run.
  destruct (_cur_page_no s) as [r|] eqn:Er; run.
  - destruct (_dir_cached s) eqn:Hc; run.
    + destruct Hdir as [[files Hd] (p & ops & Hlog)]. rewrite Hd. run.
      eexists; split; [done|]. split; [|done].
      destruct R as [? ? _ Hfiles ? _]. split; simpl; try done.
      * intros j Hj Hjlt Hjne. unfold page_file. simpl.
        destruct (decide (j = r)) as [->|].
        -- rewrite lookup_insert_eq. f_equal. tauto.
        -- rewrite lookup_insert_ne by done. specialize (Hfiles j).
           unfold page_file in *. rewrite Hd in *. apply Hfiles; congruence.
      * rewrite Hc. split; [done|]. log_goal Hlog.
    + destruct Hdir as [Hd Hlog].
      eexists; split; [done|]. split; [|done].
      destruct R as [? ? _ Hfiles ? _]. split; simpl; try done.
      * intros j Hj Hjlt Hjne. unfold page_file. simpl.
        destruct (decide (j = r)) as [->|].
        -- rewrite lookup_insert_eq. f_equal. tauto.
        -- specialize (Hfiles j).
           unfold page_file in *. rewrite Hd in *. simpl in *.
           exfalso. assert (_cur_page_no s ≠ Some j) as X by congruence. specialize (Hfiles Hj Hjlt X). done.
      * split; [done|]. log_goal Hlog.
  - eexists; split; [done|]. split; [|done].
    destruct R as [? ? _ Hfiles ? ?]. split; simpl; try done.
    intros j Hj Hjlt Hjne. nia.
Qed.
(** ** The methods keep the representation *)

Lemma bind_Ok {T U} (m : M A T) (k : T → M A U) s v s' :
  m s = Ok v s' → bind m k s = k v s'.
Proof. unfold bind. by intros ->. Qed.

Lemma bind_Raise {T U} (m : M A T) (k : T → M A U) s e s' :
  m s = Raise e s' → bind m k s = Raise e s'.
Proof. unfold bind. by intros ->. Qed.

Lemma _local_index_err s i :
  ¬ (0 ≤ effective (_cur_len s) i < _cur_len s) →
  _local_index (Int i) s = Raise IndexError s.
Proof.
  intros H. unfold _local_index, effective in *. run.
  by rewrite (decide_False (P := 0 ≤ _ < _)).
Qed.

Lemma _local_index_ok s l i :
  represents s l →
  let e := effective (_cur_len s) i in
  0 ≤ e < _cur_len s →
  ∃ s', _local_index (Int i) s = Ok (e `mod` _page_size s) s' ∧
        represents s' l ∧ _cur_page_no s' = Some (e `div` _page_size s) ∧
        _page_size s' = _page_size s.
Proof.
  intros R e He. unfold _local_index. run. fold (effective (_cur_len s) i). fold e.
  rewrite (decide_True (P := 0 ≤ _ < _)) by done.
  pose proof (rep_page_size _ _ R) as Hps.
  destruct (divmod_bounds e _ (proj1 He) Hps) as (Hk & Hli & Heq).
  unfold divmod. rewrite decide_False by lia. run.
  case_decide as Hne.
  - destruct (_switch_to_load s l (e `div` _page_size s)) as (s' & -> & R' & ? & ?);
      [done|done|lia|congruence|]. eauto.
  - eauto.
Qed.

Lemma getitem_err s i :
  ¬ (0 ≤ effective (_cur_len s) i < _cur_len s) →
  __getitem__ (Int i) s = Raise IndexError s.
Proof. intros H. unfold __getitem__. by rewrite (bind_Raise _ _ _ _ _ (_local_index_err _ _ H)). Qed.

Lemma setitem_err s i v :
  ¬ (0 ≤ effective (_cur_len s) i < _cur_len s) →
  __setitem__ (Int i) v s = Raise IndexError s.
Proof. intros H. unfold __setitem__. by rewrite (bind_Raise _ _ _ _ _ (_local_index_err _ _ H)). Qed.

Lemma getitem_ok s l i :
  represents s l →
  let e := effective (_cur_len s) i in
  0 ≤ e < _cur_len s →
  ∃ x s', __getitem__ (Int i) s = Ok x s' ∧ l !! Z.to_nat e = Some x ∧
          represents s' l ∧ _page_size s' = _page_size s ∧
          _cur_page_no s' = Some (e `div` _page_size s).
Proof.
  intros R e He.
  destruct (_local_index_ok s l i R He) as (s' & Hli & R' & Hp & Hps).
  unfold __getitem__. rewrite (bind_Ok _ _ _ _ _ Hli). run.
  pose proof (rep_resident _ _ R') as Hr. rewrite Hp, Hps in Hr. destruct Hr as (_ & _ & ->).
  pose proof (rep_len _ _ R) as Hlen.
  destruct (page_of_position (_page_size s) l e (rep_page_size _ _ R)) as [Hpos Hlk]; [lia|].
  unfold list_getitem. fold e. rewrite Hpos. simpl. rewrite Hlk.
  destruct (lookup_lt_is_Some_2 l (Z.to_nat e)) as [x Hx]; [lia|].
  rewrite Hx. run. eauto 10.
Qed.

Lemma setitem_ok s l i v :
  represents s l →
  let e := effective (_cur_len s) i in
  0 ≤ e < _cur_len s →
  ∃ s', __setitem__ (Int i) v s = Ok tt s' ∧
        represents s' (<[Z.to_nat e := v]> l) ∧ _page_size s' = _page_size s.
Proof.
  intros R e He.
  destruct (_local_index_ok s l i R He) as (s' & Hli & R' & Hp & Hps).
  unfold __setitem__. rewrite (bind_Ok _ _ _ _ _ Hli). run.
  pose proof (rep_resident _ _ R') as Hr. rewrite Hp, Hps in Hr. destruct Hr as (? & ? & Hdata).
  pose proof (rep_len _ _ R) as Hlen.
  pose proof (rep_page_size _ _ R) as Hpos.
  destruct (page_of_position (_page_size s) l e Hpos) as [Hposn Hlk]; [lia|].
  unfold list_setitem. rewrite Hdata. fold e. rewrite Hposn. run.
  eexists; split; [done|]. split; [|done].
  destruct R' as [? Hlen' _ Hfiles ? ?]. split; simpl; try done.
  - rewrite length_insert. done.
  - rewrite Hp, Hps. split; [done|]. split; [done|].
    symmetry. apply page_of_insert_same; lia.
  - intros j Hj Hjlt Hjne. unfold page_file. simpl.
    specialize (Hfiles j Hj Hjlt Hjne). unfold page_file in Hfiles. rewrite Hfiles.
    rewrite Hps. f_equal. symmetry. apply page_of_insert_other; [lia..|]. subst e. congruence.
Qed.

Lemma append_resident s l v :
  represents s l →
  _cur_page_no s = Some (_cur_len s `div` _page_size s) →
  represents (with_cur_len (_cur_len s + 1)
                (with_cur_page_data (_cur_page_data s ++ [v]) s)) (l ++ [v]).
Proof.
  intros R Hp.
  pose proof (rep_page_size _ _ R) as Hps.
  pose proof (rep_len _ _ R) as Hlen.
  destruct (divmod_bounds (_cur_len s) _ ltac:(lia) Hps) as (Hk & Hli & Heq).
  set (k := _cur_len s `div` _page_size s) in *.
  pose proof (rep_resident _ _ R) as Hr. rewrite Hp in Hr. destruct Hr as (_ & _ & Hdata).
  destruct R as [_ _ _ Hfiles ? ?]. split; simpl; try done.
  - rewrite length_app. simpl. lia.
  - rewrite Hp. split; [done|]. split; [lia|].
    rewrite Hdata. symmetry. apply page_of_app_last; lia.
  - intros j Hj Hjlt Hjne. unfold page_file. simpl.
    rewrite Hp in *.
    assert (j < k) by (assert (j ≠ k) by congruence; nia).
    specialize (Hfiles j Hj ltac:(nia) Hjne). unfold page_file in Hfiles. rewrite Hfiles.
    f_equal. symmetry. apply page_of_app_full; [lia|lia|nia].
Qed.

Lemma append_ok s l v :
  represents s l →
  ∃ s', append v s = Ok tt s' ∧ represents s' (l ++ [v]) ∧ _page_size s' = _page_size s.
Proof.
  intros R. unfold append. run.
  pose proof (rep_page_size _ _ R) as Hps.
  pose proof (rep_len _ _ R) as Hlen.
  destruct (divmod_bounds (_cur_len s) _ ltac:(lia) Hps) as (Hk & Hli & Heq).
  unfold divmod. rewrite decide_False by lia. run.
  case_decide as Hne.
  - assert (∃ s1, _switch_to (_cur_len s `div` _page_size s)
                    (bool_decide (_cur_len s `mod` _page_size s = 0)) s = Ok tt s1 ∧
                  represents s1 l ∧
                  _cur_page_no s1 = Some (_cur_len s `div` _page_size s) ∧
                  _page_size s1 = _page_size s)
      as (s1 & -> & R1 & Hp1 & Hps1).
    { case_bool_decide.
      + apply _switch_to_new; [done|done|lia|congruence].
      + apply _switch_to_load; [done|done|lia|congruence]. }
    eexists; split; [done|]. split; [|done].
    apply append_resident; [done|].
    rewrite Hp1, Hps1. do 2 f_equal. rewrite (rep_len _ _ R1). done.
  - eexists; split; [done|]. split; [|done]. by apply append_resident.
Qed.

Lemma pop_ok s l x :
  represents s (l ++ [x]) →
  ∃ s', pop (Int (-1)) s = Ok x s' ∧ represents s' l ∧ _page_size s' = _page_size s.
Proof.
  intros R. unfold pop. rewrite decide_False by (by intros []).
  pose proof (rep_page_size _ _ R) as Hps.
  pose proof (rep_len _ _ R) as Hlen. rewrite length_app in Hlen. simpl in Hlen.
  assert (He : effective (_cur_len s) (-1) = Z.of_nat (length l))
    by (unfold effective; rewrite decide_True; lia).
  destruct (_local_index_ok s _ (-1) R) as (s' & Hli & R' & Hp & Hps'); [lia|].
  rewrite He in *. rewrite (bind_Ok _ _ _ _ _ Hli). run.
  destruct (divmod_bounds (Z.of_nat (length l)) _ ltac:(lia) Hps) as (Hk & Hlib & Heq).
  set (k := Z.of_nat (length l) `div` _page_size s) in *.
  set (li := Z.of_nat (length l) `mod` _page_size s) in *.
  pose proof (rep_resident _ _ R') as Hr. rewrite Hp, Hps' in Hr. destruct Hr as (_ & _ & Hdata).
  rewrite page_of_app_last in Hdata by lia.
  assert (Hlp : length (page_of (_page_size s) l k) = Z.to_nat li).
  { rewrite length_page_of. lia. }
  assert (Hposn : list_position (length (page_of (_page_size s) l k ++ [x])) li =
                  Some (length (page_of (_page_size s) l k))).
  { unfold list_position. rewrite length_app, Hlp. simpl.
    repeat case_decide; (done || lia). }
  unfold list_pop. rewrite Hdata, Hposn. simpl.
  rewrite list_lookup_middle by done. simpl. run.
  eexists; split; [done|]. split; [|done].
  rewrite delete_middle, app_nil_r.
  destruct R' as [? Hlen1 _ Hfiles ? ?].
  rewrite length_app in Hlen1. simpl in Hlen1.
  split; simpl; try done.
  - lia.
  - rewrite Hp, Hps'. split; [done|]. split; [lia|done].
  - intros j Hj Hjlt Hjne. unfold page_file. simpl.
    rewrite Hp, Hps' in *.
    assert (j < k) by (assert (j ≠ k) by congruence; nia).
    specialize (Hfiles j Hj ltac:(nia) Hjne). unfold page_file in Hfiles. rewrite Hfiles.
    f_equal. apply page_of_app_full; [lia|lia|nia].
Qed.

Lemma pop_unsupported s index :
  index ≠ Int (-1) → pop index s = Raise NotImplementedError s.
Proof. intros H. unfold pop. by rewrite decide_True. Qed.

Lemma pop_empty s :
  _cur_len s = 0 → pop (Int (-1)) s = Raise IndexError s.
Proof.
  intros H. unfold pop. rewrite decide_False by (by intros []).
  apply bind_Raise, _local_index_err. unfold effective. rewrite decide_True; lia.
Qed.

Lemma clear_ok s l :
  represents s l → represents (state_of (clear s)) [].
Proof.
  intros [? ? _ _ ? ?]. unfold clear. run. split; simpl; try done. lia.
Qed.

Lemma extend_ok s l vs :
  represents s l →
  ∃ s', extend vs s = Ok tt s' ∧ represents s' (l ++ vs) ∧ _page_size s' = _page_size s.
Proof.
  unfold extend. revert s l. induction vs as [|v vs IH]; intros s l R; simpl.
  - rewrite app_nil_r. by exists s.
  - destruct (append_ok s l v R) as (s1 & H1 & R1 & Hps1).
    rewrite (bind_Ok _ _ _ _ _ H1).
    destruct (IH s1 _ R1) as (s2 & H2 & R2 & Hps2).
    exists s2. rewrite <- app_assoc in R2. split; [done|]. split; [done|congruence].
Qed.

Lemma new_instance_represents ps :
  1 ≤ ps → represents (new_instance (A:=A) ps) [].
Proof. intros. split; simpl; try done. intros; nia. Qed.

Lemma init_ok items ps :
  1 ≤ ps →
  ∃ s, __init__ items ps = Ok tt s ∧ represents s items ∧ _page_size s = ps.
Proof.
  intros Hps. unfold __init__.
  destruct (extend_ok _ _ items (new_instance_represents ps Hps)) as (s & H & R & E).
  by exists s.
Qed.

(** *** Iteration *)

Lemma iter_from_ok s l (n : nat) acc fuel :
  represents s l → (n ≤ length l)%nat → (length l - n < fuel)%nat →
  ∃ s', iter_from fuel (Z.of_nat n) acc s = Some (Ok (acc ++ drop n l) s') ∧
        represents s' l ∧ _page_size s' = _page_size s.
Proof.
  revert s n acc. induction fuel as [|fuel IH]; intros s n acc R Hn Hfuel; [lia|].
  simpl. pose proof (rep_len _ _ R) as Hlen.
  assert (Heff : effective (_cur_len s) (Z.of_nat n) = Z.of_nat n)
    by (unfold effective; rewrite decide_False; lia).
  destruct (decide (n = length l)) as [->|Hne].
  - rewrite getitem_err by (rewrite Heff; lia).
    rewrite drop_all, app_nil_r. eauto.
  - destruct (getitem_ok s l (Z.of_nat n) R) as (x & s1 & -> & Hx & R1 & Hps1 & _);
      [rewrite Heff; lia|].
    rewrite Heff, Nat2Z.id in Hx.
    replace (Z.of_nat n + 1) with (Z.of_nat (S n)) by lia.
    destruct (IH s1 (S n) (acc ++ [x]) R1) as (s2 & -> & R2 & Hps2); [lia|lia|].
    exists s2. split; [|split; [done|congruence]].
    rewrite <- app_assoc. simpl. do 3 f_equal. symmetry. by apply drop_S.
Qed.

Lemma iterate_ok s l fuel :
  represents s l → (length l < fuel)%nat →
  ∃ s', iterate fuel s = Some (Ok l s') ∧ represents s' l ∧ _page_size s' = _page_size s.
Proof.
  intros R Hfuel. destruct (iter_from_ok s l 0 [] fuel R) as (s' & H & ?); [lia|lia|].
  exists s'. by rewrite drop_0 in H.
Qed.

Lemma iter_from_more_fuel s fuel fuel' i acc r :
  iter_from fuel i acc s = Some r → (fuel ≤ fuel')%nat →
  iter_from fuel' i acc s = Some r.
Proof.
  revert s fuel' i acc. induction fuel as [|fuel IH]; intros s fuel' i acc H Hle; [done|].
  destruct fuel' as [|fuel']; [lia|]. simpl in *.
  destruct (__getitem__ (Int i) s) as [v s1|e s1]; [|done].
  apply IH; [done|lia].
Qed.

Lemma content_unique s l l' :
  content s l → content s l' → l = l'.
Proof.
  intros (f & s1 & H) (f' & s1' & H').
  apply (iter_from_more_fuel _ _ (f `max` f')%nat) in H; [|lia].
  apply (iter_from_more_fuel _ _ (f `max` f')%nat) in H'; [|lia].
  unfold iterate in *. congruence.
Qed.

Lemma represents_content s l : represents s l → content s l.
Proof.
  intros R. destruct (iterate_ok s l (S (length l)) R) as (s' & H & _); [lia|].
  by exists (S (length l)), s'.
Qed.

Lemma content_represents s l l' : represents s l → content s l' → l' = l.
Proof. intros R C. eapply content_unique; [done|]. by apply represents_content. Qed.

(** *** Every reachable state represents a list *)

Lemma getitem_represents s l index :
  represents s l → represents (state_of (__getitem__ index s)) l.
Proof.
  intros R. destruct index as [i|]; [|done].
  destruct (decide (0 ≤ effective (_cur_len s) i < _cur_len s)) as [H|H].
  - destruct (getitem_ok s l i R H) as (x & s' & -> & _ & R' & _). done.
  - by rewrite getitem_err.
Qed.

Lemma setitem_represents s l index v :
  represents s l → ∃ l', represents (state_of (__setitem__ index v s)) l'.
Proof.
  intros R. destruct index as [i|]; [|by exists l].
  destruct (decide (0 ≤ effective (_cur_len s) i < _cur_len s)) as [H|H].
  - destruct (setitem_ok s l i v R H) as (s' & -> & R' & _). eauto.
  - rewrite setitem_err by done. eauto.
Qed.

Lemma pop_represents s l index :
  represents s l → ∃ l', represents (state_of (pop index s)) l'.
Proof.
  intros R. destruct (decide (index = Int (-1))) as [->|H].
  - destruct l as [|x l _] using rev_ind.
    + rewrite pop_empty by (by rewrite (rep_len _ _ R)). eauto.
    + destruct (pop_ok s l x R) as (s' & -> & R' & _). eauto.
  - rewrite pop_unsupported by done. eauto.
Qed.

Lemma reachable_represents s : reachable s → ∃ l, represents s l.
Proof.
  induction 1 as [items ps s Hps Hinit|s index _ [l R]|s index v _ [l R]|s v _ [l R]
                 |s vs _ [l R]|s index _ [l R]|s _ [l R]|s fuel r _ [l R] Hit].
  - destruct (init_ok items ps Hps) as (s' & H' & R & _).
    exists items. rewrite Hinit in H'. by injection H' as ->.
  - exists l. by apply getitem_represents.
  - by eapply setitem_represents.
  - destruct (append_ok s l v R) as (s' & -> & R' & _). eauto.
  - destruct (extend_ok s l vs R) as (s' & -> & R' & _). eauto.
  - by eapply pop_represents.
  - exists []. by eapply clear_ok.
  - destruct (iterate_ok s l (S (length l) `max` fuel) R) as (s' & H' & R' & _); [lia|].
    apply (iter_from_more_fuel _ _ (S (length l) `max` fuel)%nat) in Hit; [|lia].
    unfold iterate in *. exists l. rewrite Hit in H'. by injection H' as ->.
Qed.

(** *** Before the directory exists *)

Lemma uncached_shape s l :
  represents s l → _dir_cached s = false →
  _cur_len s ≤ _page_size s ∧
  (_cur_page_no s = None ∧ _cur_len s = 0 ∨ _cur_page_no s = Some 0).
Proof.
  intros R Hc.
  pose proof (rep_dir _ _ R) as Hd. rewrite Hc in Hd. destruct Hd as [Hd _].
  pose proof (rep_page_size _ _ R) as Hps.
  pose proof (rep_len _ _ R) as Hlen.
  assert (Hno : ∀ k, 0 ≤ k → k * _page_size s < _cur_len s → _cur_page_no s = Some k).
  { intros k Hk Hlt. destruct (decide (_cur_page_no s = Some k)) as [|Hne]; [done|].
    pose proof (rep_files _ _ R k Hk Hlt Hne) as F.
    unfold page_file in F. by rewrite Hd in F. }
  pose proof (rep_resident _ _ R) as Hr.
  split.
  - destruct (decide (_cur_len s ≤ _page_size s)); [done|].
    pose proof (Hno 0 ltac:(lia) ltac:(lia)). pose proof (Hno 1 ltac:(lia) ltac:(lia)).
    congruence.
  - destruct (_cur_page_no s) as [r|]; [right|left; tauto].
    destruct (decide (0 < _cur_len s)).
    + by rewrite <- (Hno 0) by lia.
    + f_equal. nia.
Qed.

Lemma _local_index_uncached s l index :
  represents s l → _dir_cached s = false →
  (∃ li, _local_index index s = Ok li s) ∨ (∃ e, _local_index index s = Raise e s).
Proof.
  intros R Hc. destruct index as [i|]; [|right; by eexists].
  destruct (decide (0 ≤ effective (_cur_len s) i < _cur_len s)) as [He|He].
  - left. destruct (uncached_shape s l R Hc) as [Hle [[_ ?]|Hp]]; [lia|].
    unfold _local_index. run. fold (effective (_cur_len s) i).
    rewrite (decide_True (P := 0 ≤ _ < _)) by done.
    unfold divmod. rewrite decide_False by (pose proof (rep_page_size _ _ R); lia). run.
    rewrite Z.div_small by lia. rewrite Hp.
    rewrite decide_False by (intros H; by apply H). run. by eexists.
  - right. rewrite _local_index_err by done. by eexists.
Qed.

Lemma list_getitem_state (d : list A) i s :
  state_of (list_getitem d i s) = s.
Proof. unfold list_getitem. by destruct (_ ≫= _). Qed.

Lemma getitem_uncached s l index :
  represents s l → _dir_cached s = false → state_of (__getitem__ index s) = s.
Proof.
  intros R Hc. unfold __getitem__.
  destruct (_local_index_uncached s l index R Hc) as [[li H]|[e H]].
  - rewrite (bind_Ok _ _ _ _ _ H). run. apply list_getitem_state.
  - by rewrite (bind_Raise _ _ _ _ _ H).
Qed.

Lemma setitem_uncached s l index v :
  represents s l → _dir_cached s = false →
  let s' := state_of (__setitem__ index v s) in
  _dir_cached s' = false ∧ tmpdir s' = None ∧ disk_log s' = [].
Proof.
  intros R Hc.
  pose proof (rep_dir _ _ R) as Hd. rewrite Hc in Hd. destruct Hd as [Hd Hlog].
  unfold __setitem__.
  destruct (_local_index_uncached s l index R Hc) as [[li H]|[e H]].
  - rewrite (bind_Ok _ _ _ _ _ H). run. unfold list_setitem.
    by destruct (list_position _ _).
  - by rewrite (bind_Raise _ _ _ _ _ H).
Qed.

Lemma pop_uncached s l index :
  represents s l → _dir_cached s = false →
  let s' := state_of (pop index s) in
  _dir_cached s' = false ∧ tmpdir s' = None ∧ disk_log s' = [].
Proof.
  intros R Hc.
  pose proof (rep_dir _ _ R) as Hd. rewrite Hc in Hd. destruct Hd as [Hd Hlog].
  unfold pop. case_decide; [done|].
  destruct (_local_index_uncached s l (Int (-1)) R Hc) as [[li Hli]|[e Hli]].
  - rewrite (bind_Ok _ _ _ _ _ Hli). run. unfold list_pop.
    by destruct (_ ≫= _) as [[??]|].
  - by rewrite (bind_Raise _ _ _ _ _ Hli).
Qed.

Lemma append_uncached s l v :
  represents s l → _dir_cached s = false →
  let s' := state_of (append v s) in
  if decide (_cur_len s = _page_size s)
  then _cur_page_no s = Some 0 ∧ _dir_cached s' = true ∧
       tmpdir s' = Some {[ 0 := _cur_page_data s ]} ∧
       disk_log s' = [Mkdtemp; OpenWrite 0]
  else _dir_cached s' = false ∧ tmpdir s' = None ∧ disk_log s' = [].
Proof.
  intros R Hc.
  pose proof (rep_dir _ _ R) as Hd. rewrite Hc in Hd. destruct Hd as [Hd Hlog].
  pose proof (rep_page_size _ _ R) as Hps.
  pose proof (rep_len _ _ R) as Hlen.
  destruct (uncached_shape s l R Hc) as [Hle Hshape].
  unfold append. run. unfold divmod.
  rewrite (decide_False (P := _page_size s = 0)) by lia. run.
  case_decide as Hfull.
  - destruct Hshape as [[_ ?]|Hp]; [lia|]. split; [done|].
    rewrite Hfull, Z.div_same, Z.mod_same by lia. rewrite Hp.
    rewrite decide_True by done.
    unfold _switch_to, _get_page_filename, _dir, pickle_dump, mkdtemp. run.
    rewrite Hp. run. rewrite Hc. run. rewrite Hlog. done.
  - rewrite Z.div_small, Z.mod_small by lia.
    destruct Hshape as [[Hp Hz]|Hp]; rewrite Hp.
    + rewrite decide_True by done. rewrite Hz. simpl.
      unfold _switch_to. run. rewrite Hp. run. done.
    + rewrite decide_False by (intros H; by apply H). run. done.
Qed.

Lemma init_one_page (items : list A) ps :
  1 ≤ ps → Z.of_nat (length items) ≤ ps →
  ∃ s, __init__ items ps = Ok tt s ∧
       _dir_cached s = false ∧ tmpdir s = None ∧ disk_log s = [].
Proof.
  intros Hps Hlen. unfold __init__, extend.
  assert (G : ∀ vs s l, represents s l → _dir_cached s = false →
    _cur_len s + Z.of_nat (length vs) ≤ _page_size s →
    ∃ s', for_each vs append s = Ok tt s' ∧
          _dir_cached s' = false ∧ tmpdir s' = None ∧ disk_log s' = []).
  { induction vs as [|v vs IH]; intros s l R Hc Hfit; simpl in *.
    - exists s. pose proof (rep_dir _ _ R) as Hd. rewrite Hc in Hd. tauto.
    - pose proof (append_uncached s l v R Hc) as Hu. simpl in Hu.
      pose proof (rep_len _ _ R).
      rewrite decide_False in Hu by lia.
      destruct (append_ok s l v R) as (s1 & H1 & R1 & Hps1).
      rewrite H1 in Hu. simpl in Hu. rewrite (bind_Ok _ _ _ _ _ H1).
      apply (IH s1 _ R1); [tauto|].
      rewrite (rep_len _ _ R1), length_app, Hps1. simpl. lia. }
  apply (G items _ [] (new_instance_represents ps Hps)); simpl; [done|lia].
Qed.

(** *** A page swap saves the outgoing page *)

Lemma _switch_to_saves s l r k new :
  represents s l → _cur_page_no s = Some r →
  let s' := state_of (_switch_to k new s) in
  page_file s' r = Some (_cur_page_data s) ∧
  ∃ ops, disk_log s' = disk_log (state_of (_dir s)) ++ OpenWrite r :: ops.
Proof.
  intros R Hp.
  pose proof (rep_dir _ _ R) as Hd.
  unfold _switch_to, _get_page_filename, _dir, pickle_dump, pickle_load, mkdtemp, page_file.
  run. rewrite Hp. run.
  destruct (_dir_cached s) eqn:Hc; run.
  - destruct Hd as [[files Hd] _]. rewrite Hd. run.
    destruct new; run.
    + rewrite lookup_insert_eq. split; [done|]. by eexists.
    + rewrite Hc. run.
      destruct (<[r:=_cur_page_data s]> files !! k) eqn:E; run;
        (rewrite lookup_insert_eq; split; [done|]; rewrite <- app_assoc; by eexists).
  - destruct new; run.
    + rewrite lookup_insert_eq. split; [done|]. by eexists.
    + destruct (<[r:=_cur_page_data s]> ∅ !! k) eqn:E; run;
        (rewrite lookup_insert_eq; split; [done|]; rewrite <- app_assoc; by eexists).
Qed.

(** *** Closing *)

Lemma remove_in_dir s (files : gmap Z (list A)) fn :
  tmpdir s = Some files → is_Some (files !! fn) → _dir_cached s = true →
  bind _dir (λ _, remove fn) s =
    Ok tt (with_tmpdir (Some (delete fn files)) (logged (Remove fn) s)).
Proof.
  intros Hd Hin Hc. unfold _dir, remove. run. rewrite Hc. run. rewrite Hd. run.
  by rewrite decide_True.
Qed.

Lemma for_each_remove (ks : list Z) s (files : gmap Z (list A)) :
  NoDup ks → (∀ k, k ∈ ks → is_Some (files !! k)) →
  tmpdir s = Some files → _dir_cached s = true →
  ∃ s', for_each ks (λ fn, bind _dir (λ _, remove fn)) s = Ok tt s' ∧
        tmpdir s' = Some (foldl (λ m k, delete k m) files ks) ∧
        _page_size s' = _page_size s ∧ _cur_len s' = _cur_len s ∧
        _cur_page_no s' = _cur_page_no s ∧ _cur_page_data s' = _cur_page_data s ∧
        _closed s' = _closed s ∧ _dir_cached s' = true.
Proof.
  revert s files. induction ks as [|k ks IH]; intros s files Hnd Hin Hd Hc; simpl.
  - exists s. run. done.
  - apply NoDup_cons in Hnd as [Hk Hnd].
    rewrite (bind_Ok _ _ _ _ _ (remove_in_dir s files k Hd (Hin k ltac:(left)) Hc)).
    edestruct (IH (with_tmpdir (Some (delete k files)) (logged (Remove k) s)))
      as (s' & Hs' & ?); [done| |done|done|].
    { intros j Hj. rewrite lookup_delete_ne by (intros ->; done). apply Hin. by right. }
    exists s'. done.
Qed.

Lemma delete_all_keys (files : gmap Z (list A)) :
  foldl (λ m k, delete k m) files (map_to_list files).*1 = ∅.
Proof.
  assert (G : ∀ ks (m : gmap Z (list A)) j,
    foldl (λ m k, delete k m) m ks !! j = if decide (j ∈ ks) then None else m !! j).
  { induction ks as [|k ks IH]; intros m j.
    - case_decide as H; [by apply not_elem_of_nil in H|done].
    - cbn [foldl]. rewrite IH. destruct (decide (j = k)) as [->|Hjk].
      + rewrite lookup_delete_eq. rewrite (decide_True (P := k ∈ k :: ks)) by left.
        by case_decide.
      + rewrite lookup_delete_ne by done.
        destruct (decide (j ∈ ks)) as [Hj|Hj].
        * rewrite (decide_True (P := j ∈ k :: ks)) by (by right). done.
        * rewrite (decide_False (P := j ∈ k :: ks)); [done|].
          intros [?|?]%elem_of_cons; done. }
  apply map_eq. intros j. rewrite G, lookup_empty.
  case_decide as Hj; [done|].
  destruct (files !! j) as [d|] eqn:E; [|done].
  exfalso. apply Hj. apply list_elem_of_fmap. exists (j, d). split; [done|].
  by apply elem_of_map_to_list.
Qed.

Lemma close_closed s : _closed s = true → close s = Ok tt s.
Proof. intros H. unfold close. run. by rewrite H. Qed.

Lemma close_live s l :
  represents s l →
  ∃ s', close s = Ok tt s' ∧
        _cur_len s' = 0 ∧ _cur_page_no s' = None ∧ _cur_page_data s' = [] ∧
        tmpdir s' = None ∧ _closed s' = true ∧ _dir_cached s' = _dir_cached s.
Proof.
  intros R.
  pose proof (rep_open _ _ R) as Ho. pose proof (rep_dir _ _ R) as Hd.
  unfold close, clear, _filesystem_used. run. rewrite Ho. run.
  destruct (_dir_cached s) eqn:Hc; run.
  - destruct Hd as [[files Hf] _].
    unfold _dir at 1, listdir. run. rewrite Hc. run. rewrite Hf. run.
    edestruct (for_each_remove (map_to_list files).*1
                 (logged Listdir (with_cur_len 0 (with_cur_page_no None (with_cur_page_data [] s)))))
      as (s1 & Hs1 & Ht1 & ? & ? & ? & ? & ? & Hc1);
      [apply NoDup_fst_map_to_list| |done|done|].
    { intros k Hk. apply list_elem_of_fmap in Hk as ([k' d] & -> & Hk).
      apply elem_of_map_to_list in Hk. by eexists. }
    unfold bind in Hs1. cbv beta in Hs1. rewrite Hs1.
    rewrite delete_all_keys in Ht1.
    unfold _dir, rmdir. run. rewrite Hc1. run. rewrite Ht1. run.
    eexists. split; [done|]. simpl. done.
  - eexists. split; [done|]. simpl.
    destruct Hd as [-> _]. done.
Qed.

Lemma close_uncached s l :
  represents s l → _dir_cached s = false →
  let s' := state_of (close s) in
  _dir_cached s' = false ∧ tmpdir s' = None ∧ disk_log s' = [].
Proof.
  intros R Hc.
  pose proof (rep_open _ _ R) as Ho. pose proof (rep_dir _ _ R) as Hd.
  rewrite Hc in Hd. destruct Hd as [Hd Hlog].
  unfold close, clear, _filesystem_used. run. rewrite Ho. run. rewrite Hc. run.
  by rewrite Hc.
Qed.

(** *** Reads, and what a reachable state holds *)

Lemma effective_valid n k : - n ≤ k < n → 0 ≤ effective n k < n.
Proof. intros. unfold effective. case_decide; lia. Qed.

Lemma reachable_content s l :
  reachable s → content s l → represents s l.
Proof.
  intros [l' R]%reachable_represents C.
  by rewrite (content_represents _ _ _ R C).
Qed.

Lemma after_reads_represents ks s l :
  represents s l → represents (after_reads ks s) l.
Proof.
  unfold after_reads. revert s. induction ks as [|k ks IH]; intros s R; simpl; [done|].
  apply IH. by apply getitem_represents.
Qed.

Lemma _local_index_swap s i :
  let e := effective (_cur_len s) i in
  0 ≤ e < _cur_len s → _page_size s ≠ 0 →
  _cur_page_no s ≠ Some (e `div` _page_size s) →
  _local_index (Int i) s =
    bind (_switch_to (e `div` _page_size s) false) (λ _, ret (e `mod` _page_size s)) s.
Proof.
  intros e He Hps Hne. unfold _local_index.
  unfold bind at 1. unfold self at 1. fold (effective (_cur_len s) i). fold e.
  rewrite (decide_True (P := 0 ≤ _ < _)) by done.
  unfold divmod. rewrite (decide_False (P := _page_size s = 0)) by done.
  unfold bind at 1. unfold ret at 1.
  by rewrite decide_True by congruence.
Qed.

Lemma getitem_saves s l r i :
  represents s l → _cur_page_no s = Some r →
  let e := effective (_cur_len s) i in
  0 ≤ e < _cur_len s → e `div` _page_size s ≠ r →
  ∃ x s', __getitem__ (Int i) s = Ok x s' ∧ page_file s' r = Some (_cur_page_data s).
Proof.
  intros R Hp e He Hne.
  pose proof (rep_page_size _ _ R) as Hps.
  destruct (divmod_bounds e _ (proj1 He) Hps) as (Hk & Hli & Heq).
  destruct (getitem_ok s l i R He) as (x & s' & Hget & _).
  exists x, s'. split; [done|].
  destruct (_switch_to_load s l (e `div` _page_size s)) as (s1 & Hsw & _);
    [done|done|lia|congruence|].
  destruct (_switch_to_saves s l r (e `div` _page_size s) false R Hp) as [Hsave _].
  rewrite Hsw in Hsave. simpl in Hsave.
  unfold __getitem__ in Hget. unfold bind at 1 in Hget.
  rewrite _local_index_swap in Hget by (fold e; (done || lia || congruence)).
  fold e in Hget. unfold bind at 1 in Hget. rewrite Hsw in Hget.
  unfold bind, ret, self in Hget.
  pose proof (list_getitem_state (_cur_page_data s1) (e `mod` _page_size s) s1) as Hst.
  rewrite Hget in Hst. simpl in Hst. by subst s'.
Qed.

End Core.


(** * The specification's properties *)


(** ** C1: iteration returns the items that were appended *)

(** C1. For every list of items and every page size [>= 1], the sequence
    built from the items (by the constructor, which extends an empty
    sequence, that is appends the items one by one) has the length of the
    list, and iterating over it yields exactly the items, in order: the
    page size has no influence on what is observed.  The loop of the
    iteration ends: any fuel above the number of items is enough. *)
Theorem iterate_after_build {A : Type} (items : list A) (page_size : Z) :
  1 ≤ page_size →
  ∃ s, __init__ items page_size = Ok tt s ∧
       (∀ s0, __init__ [] page_size = Ok tt s0 →
              extend items s0 = Ok tt s ∧ for_each items append s0 = Ok tt s) ∧
       __len__ s = Ok (Z.of_nat (length items)) s ∧
       ∀ fuel, (length items < fuel)%nat → ∃ s', iterate fuel s = Some (Ok items s').
Proof.
  intros Hps. destruct (init_ok items page_size Hps) as (s & Hinit & R & _).
  exists s. split; [done|]. split; [|split].
  - intros s0 [= <-]. done.
  - unfold __len__, bind, self, ret. by rewrite (rep_len _ _ R).
  - intros fuel Hfuel. destruct (iterate_ok s items fuel R Hfuel) as (s' & H & _). eauto.
Qed.

Lemma iterate_after_build_witness :
  1 ≤ 3 ∧
  ∃ s : FilePagedSequence nat,
    __init__ [1; 2; 3; 4]%nat 3 = Ok tt s ∧
    (∀ s0, __init__ [] 3 = Ok tt s0 →
           extend [1; 2; 3; 4]%nat s0 = Ok tt s ∧
           for_each [1; 2; 3; 4]%nat append s0 = Ok tt s) ∧
    __len__ s = Ok (Z.of_nat (length [1; 2; 3; 4]%nat)) s ∧
    ∀ fuel, (length [1; 2; 3; 4]%nat < fuel)%nat →
            ∃ s', iterate fuel s = Some (Ok [1; 2; 3; 4]%nat s').
Proof.
  split; [lia|]. apply (iterate_after_build [1; 2; 3; 4]%nat 3). lia.
Defined.

(** ** C2: [pop] removes the last item, and only when asked with [-1] *)

(** C2, as the code has it.  On a reachable sequence that holds
    [l ++ [x]], [pop] with the index [-1] (the default of an omitted index)
    returns the last item [x], leaves a sequence one item shorter that
    holds [l]; [pop] with any other index raises [NotImplementedError] and
    changes nothing: that includes the other spellings of the last
    position, such as the positive index [length - 1]. *)
Theorem pop_last_only {A : Type} (s : FilePagedSequence A) (l : list A) (x : A) :
  reachable s → content s (l ++ [x]) →
  (∃ s', pop (Int (-1)) s = Ok x s' ∧
         __len__ s' = Ok (_cur_len s - 1) s' ∧ content s' l) ∧
  (∀ index, index ≠ Int (-1) → pop index s = Raise NotImplementedError s).
Proof.
  intros Hs C. pose proof (reachable_content s _ Hs C) as R.
  split; [|intros; by apply pop_unsupported].
  destruct (pop_ok s l x R) as (s' & Hpop & R' & _).
  exists s'. split; [done|]. split; [|by apply represents_content].
  unfold __len__, bind, self, ret. do 2 f_equal.
  rewrite (rep_len _ _ R), (rep_len _ _ R'), length_app. simpl. lia.
Qed.

Lemma pop_last_only_witness :
  (∃ s', pop (Int (-1)) doctest_seq = Ok 4%nat s' ∧
         __len__ s' = Ok (_cur_len doctest_seq - 1) s' ∧
         content s' [1; 2; 3]%nat) ∧
  (∀ index, index ≠ Int (-1) → pop index doctest_seq = Raise NotImplementedError doctest_seq).
Proof.
  apply (pop_last_only doctest_seq [1; 2; 3]%nat 4%nat);
    [doctest_seq_reachable|doctest_seq_content].
Defined.

(** The claim as stated fails: in the doctest's sequence of four items,
    the index [3] denotes the last position ([length - 1]), and [pop(3)]
    raises [NotImplementedError] instead of returning the last item. *)
Lemma pop_positive_last_index_counterexample :
  _cur_len doctest_seq = 4 ∧
  effective (_cur_len doctest_seq) 3 = effective (_cur_len doctest_seq) (-1) ∧
  pop (Int 3) doctest_seq = Raise NotImplementedError doctest_seq ∧
  ¬ ∃ x s', pop (Int 3) doctest_seq = Ok x s'.
Proof.
  split; [vm_compute; reflexivity|]. split; [vm_compute; reflexivity|].
  split; [vm_compute; reflexivity|].
  intros (x & s' & H). vm_compute in H. discriminate H.
Qed.

(** ** C3: one page in memory, the others in their files *)

(** C3. In every reachable state, whose content is [l]: the resident data
    is at most one page long; if page [r] is resident, the data is page
    [r] of [l]; every other page of [l] is in its page file, with its
    current items.  A page swap saves the outgoing page first, whatever
    the swap is for: [_switch_to], to a fresh page or to a page that is
    loaded, opens the file of the outgoing page [r] for writing before any
    other file, and leaves in it the data that was resident; so does a
    plain read [self[i]] of an item of another page. *)
Theorem one_resident_page_others_on_disk {A : Type}
    (s : FilePagedSequence A) (l : list A) :
  reachable s → content s l →
  Z.of_nat (length (_cur_page_data s)) ≤ _page_size s ∧
  (∀ r, _cur_page_no s = Some r →
        _cur_page_data s = page_of (_page_size s) l r ∧
        (∀ k new,
           page_file (state_of (_switch_to k new s)) r = Some (_cur_page_data s) ∧
           ∃ ops, disk_log (state_of (_switch_to k new s)) =
                    disk_log (state_of (_dir s)) ++ OpenWrite r :: ops) ∧
        (∀ i, 0 ≤ effective (_cur_len s) i < _cur_len s →
              effective (_cur_len s) i `div` _page_size s ≠ r →
              ∃ x s', __getitem__ (Int i) s = Ok x s' ∧
                      page_file s' r = Some (_cur_page_data s))) ∧
  (∀ k, 0 ≤ k → k * _page_size s < _cur_len s → _cur_page_no s ≠ Some k →
        page_file s k = Some (page_of (_page_size s) l k)).
Proof.
  intros Hs C. pose proof (reachable_content s _ Hs C) as R.
  pose proof (rep_resident _ _ R) as Hr.
  pose proof (rep_page_size _ _ R) as Hps.
  split; [|split].
  - destruct (_cur_page_no s) as [r|].
    + destruct Hr as (_ & _ & ->). rewrite length_page_of. lia.
    + destruct Hr as [_ ->]. simpl. lia.
  - intros r Hp. rewrite Hp in Hr. split; [tauto|]. split.
    + intros k new. apply (_switch_to_saves s l r k new R Hp).
    + intros i He Hne. by apply (getitem_saves s l r i R Hp).
  - apply (rep_files _ _ R).
Qed.

Lemma one_resident_page_others_on_disk_witness :
  Z.of_nat (length (_cur_page_data doctest_seq)) ≤ _page_size doctest_seq ∧
  (∀ r, _cur_page_no doctest_seq = Some r →
        _cur_page_data doctest_seq = page_of (_page_size doctest_seq) [1; 2; 3; 4]%nat r ∧
        (∀ k new,
           page_file (state_of (_switch_to k new doctest_seq)) r =
             Some (_cur_page_data doctest_seq) ∧
           ∃ ops, disk_log (state_of (_switch_to k new doctest_seq)) =
                    disk_log (state_of (_dir doctest_seq)) ++ OpenWrite r :: ops) ∧
        (∀ i, 0 ≤ effective (_cur_len doctest_seq) i < _cur_len doctest_seq →
              effective (_cur_len doctest_seq) i `div` _page_size doctest_seq ≠ r →
              ∃ x s', __getitem__ (Int i) doctest_seq = Ok x s' ∧
                      page_file s' r = Some (_cur_page_data doctest_seq))) ∧
  (∀ k, 0 ≤ k → k * _page_size doctest_seq < _cur_len doctest_seq →
        _cur_page_no doctest_seq ≠ Some k →
        page_file doctest_seq k =
          Some (page_of (_page_size doctest_seq) [1; 2; 3; 4]%nat k)).
Proof.
  apply (one_resident_page_others_on_disk doctest_seq [1; 2; 3; 4]%nat);
    [doctest_seq_reachable|doctest_seq_content].
Defined.

(** ** C4: indices are normalised, then checked *)

(** C4. In a reachable state of length [n] whose content is [l], for every
    integer index [i], with [e = n + i] if [i] is negative and [e = i]
    otherwise: if [0 <= e < n], [self[i]] returns the item of [l] at
    position [e] and [self[i] = v] succeeds and leaves the content [l]
    with [v] at position [e]; if not, both raise [IndexError] and change
    nothing.  As a call either returns or raises, each succeeds exactly
    when [e] is in range. *)
Theorem index_normalised_and_checked {A : Type}
    (s : FilePagedSequence A) (l : list A) (i : Z) (v : A) :
  reachable s → content s l →
  let n := _cur_len s in
  let e := effective n i in
  n = Z.of_nat (length l) ∧
  (0 ≤ e < n →
     (∃ x s', __getitem__ (Int i) s = Ok x s' ∧ l !! Z.to_nat e = Some x) ∧
     (∃ s', __setitem__ (Int i) v s = Ok tt s' ∧ content s' (<[Z.to_nat e := v]> l))) ∧
  (¬ 0 ≤ e < n →
     __getitem__ (Int i) s = Raise IndexError s ∧
     __setitem__ (Int i) v s = Raise IndexError s).
Proof.
  intros Hs C n e. pose proof (reachable_content s _ Hs C) as R.
  split; [apply (rep_len _ _ R)|]. split.
  - intros He. split.
    + destruct (getitem_ok s l i R He) as (x & s' & ? & ? & _). eauto.
    + destruct (setitem_ok s l i v R He) as (s' & ? & R' & _).
      exists s'. split; [done|]. by apply represents_content.
  - intros He. split; [by apply getitem_err|by apply setitem_err].
Qed.

Lemma index_normalised_and_checked_witness :
  _cur_len doctest_seq = Z.of_nat (length [1; 2; 3; 4]%nat) ∧
  (0 ≤ effective (_cur_len doctest_seq) (-2) < _cur_len doctest_seq →
     (∃ x s', __getitem__ (Int (-2)) doctest_seq = Ok x s' ∧
              [1; 2; 3; 4]%nat !! Z.to_nat (effective (_cur_len doctest_seq) (-2)) = Some x) ∧
     (∃ s', __setitem__ (Int (-2)) 9%nat doctest_seq = Ok tt s' ∧
            content s' (<[Z.to_nat (effective (_cur_len doctest_seq) (-2)) := 9%nat]>
                          [1; 2; 3; 4]%nat))) ∧
  (¬ 0 ≤ effective (_cur_len doctest_seq) (-2) < _cur_len doctest_seq →
     __getitem__ (Int (-2)) doctest_seq = Raise IndexError doctest_seq ∧
     __setitem__ (Int (-2)) 9%nat doctest_seq = Raise IndexError doctest_seq).
Proof.
  apply (index_normalised_and_checked doctest_seq [1; 2; 3; 4]%nat (-2) 9%nat);
    [doctest_seq_reachable|doctest_seq_content].
Defined.

(** ** C5: the directory is created lazily *)

(** C5. A new instance has no directory: [_filesystem_used()] is false and
    no disk operation has been made, the constructor adding nothing to
    that when it is given no item; when all the items given to the
    constructor fit in one page, the instance it returns still has no
    directory and has made no disk operation.  In every reachable state,
    either [_dir] has been computed, the directory exists, and the first
    two disk operations ever made were its creation and the writing of a
    page file; or it has not, there is no directory, no disk operation
    has been made, and then: item reads and writes, [pop], [clear] and
    [close] make none either, and [append] makes some exactly when the
    first page is
    full ([length = page_size]), that is when a second page comes into
    existence: the swap creates the directory and saves the outgoing
    page 0 in it. *)
Theorem directory_created_lazily {A : Type} :
  (∀ page_size : Z,
     __init__ [] page_size = Ok tt (new_instance (A:=A) page_size) ∧
     _filesystem_used (new_instance (A:=A) page_size) = Ok false (new_instance page_size) ∧
     tmpdir (new_instance (A:=A) page_size) = None ∧
     disk_log (new_instance (A:=A) page_size) = []) ∧
  (∀ (items : list A) page_size,
     1 ≤ page_size → Z.of_nat (length items) ≤ page_size →
     ∃ s, __init__ items page_size = Ok tt s ∧
          _dir_cached s = false ∧ tmpdir s = None ∧ disk_log s = []) ∧
  (∀ s : FilePagedSequence A, reachable s →
     if _dir_cached s
     then is_Some (tmpdir s) ∧ ∃ p ops, disk_log s = Mkdtemp :: OpenWrite p :: ops
     else
       tmpdir s = None ∧ disk_log s = [] ∧
       (∀ index, state_of (__getitem__ index s) = s) ∧
       (∀ index v, let s' := state_of (__setitem__ index v s) in
                   _dir_cached s' = false ∧ tmpdir s' = None ∧ disk_log s' = []) ∧
       (∀ index, let s' := state_of (pop index s) in
                 _dir_cached s' = false ∧ tmpdir s' = None ∧ disk_log s' = []) ∧
       (let s' := state_of (clear s) in
        _dir_cached s' = false ∧ tmpdir s' = None ∧ disk_log s' = []) ∧
       (let s' := state_of (close s) in
        _dir_cached s' = false ∧ tmpdir s' = None ∧ disk_log s' = []) ∧
       (∀ v, let s' := state_of (append v s) in
             if decide (_cur_len s = _page_size s)
             then _cur_page_no s = Some 0 ∧ _dir_cached s' = true ∧
                  tmpdir s' = Some {[ 0 := _cur_page_data s ]} ∧
                  disk_log s' = [Mkdtemp; OpenWrite 0]
             else _dir_cached s' = false ∧ tmpdir s' = None ∧ disk_log s' = [])).
Proof.
  split; [done|]. split; [apply init_one_page|].
  intros s [l R]%reachable_represents.
  pose proof (rep_dir _ _ R) as Hd.
  destruct (_dir_cached s) eqn:Hc; [done|].
  destruct Hd as [Hd Hlog]. do 2 (split; [done|]).
  split; [intros; by eapply getitem_uncached|].
  split; [intros; by eapply setitem_uncached|].
  split; [intros; by eapply pop_uncached|].
  split; [simpl; by rewrite Hc|].
  split; [by eapply close_uncached|intros; by eapply append_uncached].
Qed.

Lemma directory_created_lazily_witness :
  1 ≤ 3 ∧ Z.of_nat (length [1; 2; 3]%nat) ≤ 3 ∧
  ∃ s : FilePagedSequence nat,
    __init__ [1; 2; 3]%nat 3 = Ok tt s ∧
    _dir_cached s = false ∧ tmpdir s = None ∧ disk_log s = [].
Proof.
  split; [lia|]. split; [simpl; lia|].
  apply (proj1 (proj2 directory_created_lazily) [1; 2; 3]%nat 3); simpl; lia.
Defined.

(** ** C6: [append] then [pop] *)

(** C6. In every reachable state, whose content is [l], appending [X]
    succeeds and popping right after returns [X]; the length is then what
    it was, the length of [l], and iterating yields [l] as before. *)
Theorem append_pop_symmetry {A : Type} (s : FilePagedSequence A) (l : list A) (X : A) :
  reachable s → content s l →
  ∃ s1 s2, append X s = Ok tt s1 ∧ pop (Int (-1)) s1 = Ok X s2 ∧
           __len__ s = Ok (Z.of_nat (length l)) s ∧
           __len__ s2 = Ok (Z.of_nat (length l)) s2 ∧
           content s2 l.
Proof.
  intros Hs C. pose proof (reachable_content s _ Hs C) as R.
  destruct (append_ok s l X R) as (s1 & H1 & R1 & _).
  destruct (pop_ok s1 l X R1) as (s2 & H2 & R2 & _).
  exists s1, s2. do 2 (split; [done|]).
  unfold __len__, bind, self, ret. rewrite (rep_len _ _ R), (rep_len _ _ R2).
  do 2 (split; [done|]). by apply represents_content.
Qed.

Lemma append_pop_symmetry_witness :
  ∃ s1 s2, append 42%nat doctest_seq = Ok tt s1 ∧
           pop (Int (-1)) s1 = Ok 42%nat s2 ∧
           __len__ doctest_seq = Ok (Z.of_nat (length [1; 2; 3; 4]%nat)) doctest_seq ∧
           __len__ s2 = Ok (Z.of_nat (length [1; 2; 3; 4]%nat)) s2 ∧
           content s2 [1; 2; 3; 4]%nat.
Proof.
  apply (append_pop_symmetry doctest_seq [1; 2; 3; 4]%nat 42%nat);
    [doctest_seq_reachable|doctest_seq_content].
Defined.

(** ** C7: closing twice *)

(** On a sequence that was never closed, the first [close] succeeds, and
    closing it again succeeds too and changes nothing at all: after one
    call or two, the length is 0, no page is resident, the directory and
    every page file are gone, and iterating yields nothing. *)
Theorem close_idempotent {A : Type} (s : FilePagedSequence A) :
  reachable s →
  ∃ s1, close s = Ok tt s1 ∧ close s1 = Ok tt s1 ∧
        _cur_len s1 = 0 ∧ _cur_page_no s1 = None ∧ _cur_page_data s1 = [] ∧
        tmpdir s1 = None ∧ content s1 [].
Proof.
  intros [l R]%reachable_represents.
  destruct (close_live s l R) as (s1 & H1 & Hlen & Hp & Hdata & Ht & Hcl & _).
  exists s1. split; [done|]. split; [by apply close_closed|].
  do 4 (split; [done|]).
  exists 1%nat, s1. unfold iterate. simpl.
  rewrite getitem_err; [done|]. unfold effective. rewrite Hlen. simpl. lia.
Qed.

Lemma close_idempotent_witness :
  ∃ s1, close doctest_seq = Ok tt s1 ∧ close s1 = Ok tt s1 ∧
        _cur_len s1 = 0 ∧ _cur_page_no s1 = None ∧ _cur_page_data s1 = [] ∧
        tmpdir s1 = None ∧ content s1 [].
Proof. apply (close_idempotent doctest_seq). doctest_seq_reachable. Defined.

(** C7. A sequence that is filled again after a first [close]: the flag
    [_closed] is still set, so the last [close] returns at once.  It
    raises nothing and changes nothing: the four items, the directory
    and the page file [0] are all still there, and the disk has seen no
    call that removes anything. *)
Theorem close_skipped_after_reuse :
  let r0 := __init__ ([] : list nat) 3 in
  let r1 := and_then r0 close in
  let r2 := and_then r1 (extend [1; 2; 3; 4]%nat) in
  let r3 := and_then r2 close in
  r1 = Ok tt (state_of r1) ∧ r2 = Ok tt (state_of r2) ∧
  _closed (state_of r2) = true ∧
  r3 = Ok tt (state_of r2) ∧
  and_then r3 __len__ = Ok 4 (state_of r2) ∧
  content (state_of r3) [1; 2; 3; 4]%nat ∧
  tmpdir (state_of r3) = Some {[0 := [1; 2; 3]%nat]} ∧
  disk_log (state_of r3) = [Mkdtemp; OpenWrite 0].
Proof.
  cbv zeta. split_and!; try (vm_compute; reflexivity).
  eexists 5%nat, _. vm_compute. reflexivity.
Qed.

(** ** C8: reads do not change the content *)

(** C8. After any series of reads [self[k]] with valid indices
    ([-length <= k < length]) on a reachable sequence, the length is what
    it was, iterating yields what it yielded, and for every valid index
    [self[k]] returns the value it returned before the series. *)
Theorem reads_are_pure {A : Type} (s : FilePagedSequence A) (ks : list Z) :
  reachable s →
  Forall (λ k, - _cur_len s ≤ k < _cur_len s) ks →
  let s' := after_reads ks s in
  __len__ s' = Ok (_cur_len s) s' ∧
  (∀ l, content s l → content s' l) ∧
  ∀ k, - _cur_len s ≤ k < _cur_len s →
       ∃ x s1 s2, __getitem__ (Int k) s = Ok x s1 ∧ __getitem__ (Int k) s' = Ok x s2.
Proof.
  intros Hs Hks s'. destruct (reachable_represents s Hs) as [l R].
  pose proof (after_reads_represents ks s l R) as R'. fold s' in R'.
  assert (Hlen : _cur_len s' = _cur_len s) by (by rewrite (rep_len _ _ R), (rep_len _ _ R')).
  split; [|split].
  - unfold __len__, bind, self, ret. by rewrite Hlen.
  - intros l' C. rewrite (content_represents _ _ _ R C). by apply represents_content.
  - intros k Hk.
    destruct (getitem_ok s l k R (effective_valid _ _ Hk)) as (x & s1 & H1 & Hx & _).
    rewrite <- Hlen in Hk.
    destruct (getitem_ok s' l k R' (effective_valid _ _ Hk)) as (x' & s2 & H2 & Hx' & _).
    rewrite Hlen in Hx'. exists x, s1, s2. split; [done|]. congruence.
Qed.

Lemma reads_are_pure_witness :
  __len__ (after_reads [0; -1; 2; -2; 1] doctest_seq) =
    Ok (_cur_len doctest_seq) (after_reads [0; -1; 2; -2; 1] doctest_seq) ∧
  (∀ l, content doctest_seq l → content (after_reads [0; -1; 2; -2; 1] doctest_seq) l) ∧
  ∀ k, - _cur_len doctest_seq ≤ k < _cur_len doctest_seq →
       ∃ x s1 s2, __getitem__ (Int k) doctest_seq = Ok x s1 ∧
                  __getitem__ (Int k) (after_reads [0; -1; 2; -2; 1] doctest_seq) = Ok x s2.
Proof.
  apply (reads_are_pure doctest_seq [0; -1; 2; -2; 1]); [doctest_seq_reachable|].
  repeat constructor; vm_compute; intuition discriminate.
Defined.

(** ** C9: [pop] on an empty sequence *)

(** C9. On a sequence of length 0, [pop()] (index omitted, that is [-1])
    raises [IndexError], which is not the error of unsupported
    operations, and leaves the sequence as it was. *)
Theorem pop_empty_raises_IndexError {A : Type} (s : FilePagedSequence A) :
  _cur_len s = 0 →
  pop (Int (-1)) s = Raise IndexError s ∧ IndexError ≠ NotImplementedError.
Proof. intros H. split; [by apply pop_empty|done]. Qed.

Lemma pop_empty_raises_IndexError_witness :
  _cur_len (new_instance (A:=nat) 3) = 0 ∧
  pop (Int (-1)) (new_instance (A:=nat) 3) = Raise IndexError (new_instance 3) ∧
  IndexError ≠ NotImplementedError.
Proof.
  split; [reflexivity|]. apply (pop_empty_raises_IndexError (new_instance 3)). reflexivity.
Defined.

(** ** C10: the page size is not validated *)

(** C10, as the code has it.  The constructor accepts any page size: given
    no item it returns the new instance, whatever [page_size] is.  With
    [page_size = 0] every [append] raises [ZeroDivisionError] and changes
    nothing, so the sequence stays empty; on an empty sequence item reads
    and writes raise [IndexError] for every integer index, the bounds
    being checked before [divmod] is reached (an index within the bounds
    would reach it and raise [ZeroDivisionError], but there is none).
    With a page size [>= 1]
    (every reachable state), [append] always succeeds and an item read or
    write with an integer index either succeeds or raises [IndexError]:
    none raises [ZeroDivisionError]. *)
Theorem page_size_not_validated {A : Type} :
  (∀ page_size : Z, __init__ [] page_size = Ok tt (new_instance (A:=A) page_size)) ∧
  (∀ (s : FilePagedSequence A) v,
     _page_size s = 0 → append v s = Raise ZeroDivisionError s) ∧
  (∀ (s : FilePagedSequence A) i v,
     _cur_len s = 0 →
     __getitem__ (Int i) s = Raise IndexError s ∧
     __setitem__ (Int i) v s = Raise IndexError s) ∧
  (∀ (s : FilePagedSequence A) i v,
     _page_size s = 0 → 0 ≤ effective (_cur_len s) i < _cur_len s →
     __getitem__ (Int i) s = Raise ZeroDivisionError s ∧
     __setitem__ (Int i) v s = Raise ZeroDivisionError s) ∧
  (∀ s : FilePagedSequence A, reachable s →
     1 ≤ _page_size s ∧
     (∀ v, ∃ s', append v s = Ok tt s') ∧
     (∀ i, (∃ x s', __getitem__ (Int i) s = Ok x s') ∨
           __getitem__ (Int i) s = Raise IndexError s) ∧
     (∀ i v, (∃ s', __setitem__ (Int i) v s = Ok tt s') ∨
             __setitem__ (Int i) v s = Raise IndexError s)).
Proof.
  split; [done|]. split; [|split; [|split]].
  - intros s v Hps. unfold append, bind, self, divmod. by rewrite Hps.
  - intros s i v Hlen.
    assert (¬ 0 ≤ effective (_cur_len s) i < _cur_len s) by lia.
    split; [by apply getitem_err|by apply setitem_err].
  - intros s i v Hps He.
    unfold __getitem__, __setitem__, _local_index, bind, self, divmod.
    fold (effective (_cur_len s) i).
    rewrite (decide_True (P := 0 ≤ _ < _)) by done. by rewrite Hps.
  - intros s [l R]%reachable_represents. split; [apply (rep_page_size _ _ R)|].
    split; [|split].
    + intros v. destruct (append_ok s l v R) as (s' & ? & _). eauto.
    + intros i. destruct (decide (0 ≤ effective (_cur_len s) i < _cur_len s)) as [He|He].
      * left. destruct (getitem_ok s l i R He) as (x & s' & ? & _). eauto.
      * right. by apply getitem_err.
    + intros i v. destruct (decide (0 ≤ effective (_cur_len s) i < _cur_len s)) as [He|He].
      * left. destruct (setitem_ok s l i v R He) as (s' & ? & _). eauto.
      * right. by apply setitem_err.
Qed.

Lemma page_size_not_validated_witness :
  _page_size (new_instance (A:=nat) 0) = 0 ∧
  append 7%nat (new_instance 0) = Raise ZeroDivisionError (new_instance 0).
Proof.
  split; [reflexivity|].
  apply (proj1 (proj2 page_size_not_validated) (new_instance 0) 7%nat). reflexivity.
Defined.

(** The claim as stated fails: on the sequence constructed with
    [page_size = 0] from no item, reading or writing an item raises
    [IndexError], not [ZeroDivisionError]. *)
Lemma getitem_page_size_zero_counterexample :
  ∃ s : FilePagedSequence nat,
    __init__ [] 0 = Ok tt s ∧
    __getitem__ (Int 0) s = Raise IndexError s ∧
    __setitem__ (Int 0) 7%nat s = Raise IndexError s ∧
    __getitem__ (Int 0) s ≠ Raise ZeroDivisionError s ∧
    __setitem__ (Int 0) 7%nat s ≠ Raise ZeroDivisionError s.
Proof.
  exists (new_instance 0). repeat split; try reflexivity; intros H; discriminate H.
Qed.


(** * Beyond the specification

    Properties of the code that the specification does not state. *)

(** ** [FilePagedSequence]: reversed iteration, round trips, the disk *)

Section MoreMethodsFacts.

Context {A : Type}.
Implicit Types (s : FilePagedSequence A) (l : list A).

Lemma yield_items_ok s l (ns : list nat) acc :
  represents s l → Forall (λ n, n < length l)%nat ns →
  ∃ s', yield_items (Z.of_nat <$> ns) acc s =
          Ok (acc ++ omap (l !!.) ns) s' ∧ represents s' l.
Proof.
  revert s acc. induction ns as [|n ns IH]; intros s acc R Hns.
  - simpl. rewrite app_nil_r. by exists s.
  - rewrite fmap_cons. cbn [yield_items].
    apply Forall_cons in Hns as [Hn Hns].
    pose proof (rep_len _ _ R) as Hlen.
    assert (Heff : effective (_cur_len s) (Z.of_nat n) = Z.of_nat n)
      by (unfold effective; rewrite decide_False; lia).
    destruct (getitem_ok s l (Z.of_nat n) R) as (x & s1 & H1 & Hx & R1 & _);
      [rewrite Heff; lia|].
    rewrite Heff, Nat2Z.id in Hx. rewrite (bind_Ok _ _ _ _ _ H1).
    destruct (IH s1 (acc ++ [x]) R1 Hns) as (s2 & H2 & R2).
    exists s2. split; [|done]. rewrite H2. cbn [omap list_omap]. rewrite Hx.
    by rewrite <- app_assoc.
Qed.

Lemma omap_lookup_rev_seq l (n : nat) :
  (n ≤ length l)%nat → omap (l !!.) (rev (seq 0 n)) = rev (take n l).
Proof.
  induction n as [|n IH]; intros Hn; [done|].
  rewrite seq_S, rev_unit. cbn [omap list_omap Nat.add].
  destruct (lookup_lt_is_Some_2 l n) as [x Hx]; [lia|].
  rewrite Hx, (take_S_r _ _ _ Hx), rev_unit. f_equal. apply IH. lia.
Qed.

Lemma reversed_ok s l :
  represents s l → ∃ s', __reversed__ s = Ok (rev l) s' ∧ represents s' l.
Proof.
  intros R. unfold __reversed__, __len__, xrange_down.
  unfold bind at 1 2. unfold self, ret.
  rewrite (rep_len _ _ R).
  replace (Z.to_nat (Z.of_nat (length l) - 1 + 1)) with (length l) by lia.
  destruct (yield_items_ok s l (rev (seq 0 (length l))) [] R) as (s' & H & R').
  { apply Forall_forall. intros n Hn%list_elem_of_In%in_rev%in_seq. lia. }
  exists s'. split; [|done]. rewrite H. simpl.
  by rewrite omap_lookup_rev_seq, firstn_all.
Qed.

Lemma pops_ok s l vs acc :
  represents s (l ++ vs) →
  ∃ s', pops (length vs) acc s = Ok (acc ++ rev vs) s' ∧ represents s' l.
Proof.
  revert s acc. induction vs as [|v vs IH] using rev_ind; intros s acc R.
  - simpl. rewrite app_nil_r in *. by exists s.
  - rewrite length_app. simpl. rewrite Nat.add_1_r. simpl.
    rewrite app_assoc in R.
    destruct (pop_ok s _ v R) as (s1 & H1 & R1 & _).
    rewrite (bind_Ok _ _ _ _ _ H1).
    destruct (IH s1 (acc ++ [v]) R1) as (s2 & H2 & R2).
    exists s2. split; [|done]. rewrite H2, rev_unit. by rewrite <- app_assoc.
Qed.


Lemma pages_written_next r :
  0 ≤ r →
  pages_written (r + 1) =
    (if decide (r = 0) then [Mkdtemp] else pages_written r) ++ [OpenWrite r].
Proof.
  intros Hr. unfold pages_written.
  rewrite (decide_False (P := r + 1 ≤ 0)) by lia.
  replace (r + 1) with (Z.of_nat (S (Z.to_nat r))) by lia.
  rewrite seqZ_S, fmap_app. simpl. rewrite !Z2Nat.id by lia.
  destruct (decide (r = 0)) as [->|]; [done|].
  by rewrite decide_False by lia.
Qed.

Lemma append_appended_only s n v :
  appended_only s n →
  ∃ s', append v s = Ok tt s' ∧ appended_only s' (n + 1) ∧
        _page_size s' = _page_size s.
Proof.
  intros [Hps Hlen Hn Hp Hc Ht Hlog].
  unfold append. run. unfold divmod.
  rewrite (decide_False (P := _page_size s = 0)) by lia. run.
  destruct (decide (n = 0)) as [->|Hn0].
  - rewrite Hlen, Z.div_0_l, Z.mod_0_l by lia. rewrite Hp.
    rewrite decide_True by done. unfold _switch_to. run. rewrite Hp. run.
    eexists. split; [done|]. split; [|done].
    assert (Hm : (0 - 1) `div` _page_size s = -1)
      by (symmetry; apply (Z.div_unique (0 - 1) _ (-1) (_page_size s - 1)); lia).
    rewrite Hm in *.
    split; simpl; rewrite ?Z.add_simpl_r, ?Z.div_0_l by lia; try done; lia.
  - destruct (divmod_bounds (n - 1) (_page_size s) ltac:(lia) Hps) as (Hr & Hj & Heq).
    set (r := (n - 1) `div` _page_size s) in *.
    set (j := (n - 1) `mod` _page_size s) in *.
    destruct (decide (j + 1 = _page_size s)) as [Hfull|Hnot].
    + assert (Hdiv : n `div` _page_size s = r + 1)
        by (symmetry; apply (Z.div_unique n _ (r + 1) 0); lia).
      assert (Hmod : n `mod` _page_size s = 0)
        by (symmetry; apply (Z.mod_unique n _ (r + 1) 0); lia).
      rewrite Hlen, Hdiv, Hmod, Hp. rewrite decide_True by (intros [=]; lia).
      unfold _switch_to, _get_page_filename, _dir, pickle_dump, mkdtemp. run.
      rewrite Hp. run. rewrite Hc.
      destruct (decide (r = 0)) as [Hr0|Hr0].
      * rewrite bool_decide_eq_false_2 by lia. run.
        eexists. split; [done|]. split; [|done].
        split; simpl; rewrite ?Z.add_simpl_r, ?Hdiv;
          try first [done | lia | by rewrite decide_False by lia
                  | by rewrite bool_decide_eq_true_2 by lia
                  | by rewrite Hc, !bool_decide_eq_true_2 by lia | by eexists].
        rewrite Hlog, pages_written_next by lia.
        rewrite decide_True by done. unfold pages_written.
        by rewrite decide_True by lia.
      * rewrite bool_decide_eq_true_2 by lia. run.
        destruct (Ht ltac:(lia)) as [files Hf]. rewrite Hf. run.
        eexists. split; [done|]. split; [|done].
        split; simpl; rewrite ?Z.add_simpl_r, ?Hdiv;
          try first [done | lia | by rewrite decide_False by lia
                  | by rewrite bool_decide_eq_true_2 by lia
                  | by rewrite Hc, !bool_decide_eq_true_2 by lia | by eexists].
        rewrite Hlog, pages_written_next by lia.
        by rewrite decide_False by done.
    + assert (Hdiv : n `div` _page_size s = r)
        by (symmetry; apply (Z.div_unique n _ r (j + 1)); lia).
      rewrite Hlen, Hdiv, Hp. rewrite decide_False by (intros H; by apply H). run.
      eexists. split; [done|]. split; [|done].
      split; simpl; rewrite ?Z.add_simpl_r, ?Hdiv;
        try first [done | lia | by rewrite decide_False by lia
                  | by rewrite bool_decide_eq_true_2 by lia
                  | by rewrite Hc, !bool_decide_eq_true_2 by lia | by eexists].
Qed.

Lemma extend_appended_only s n vs :
  appended_only s n →
  ∃ s', extend vs s = Ok tt s' ∧ appended_only s' (n + Z.of_nat (length vs)).
Proof.
  unfold extend. revert s n. induction vs as [|v vs IH]; intros s n Ha; simpl.
  - exists s. split; [done|]. by rewrite Z.add_0_r.
  - destruct (append_appended_only s n v Ha) as (s1 & H1 & Ha1 & _).
    rewrite (bind_Ok _ _ _ _ _ H1).
    destruct (IH s1 _ Ha1) as (s2 & H2 & Ha2).
    exists s2. split; [done|].
    by replace (n + Z.of_nat (S (length vs))) with (n + 1 + Z.of_nat (length vs)) by lia.
Qed.

Lemma new_instance_appended_only ps :
  1 ≤ ps → appended_only (new_instance (A:=A) ps) 0.
Proof.
  intros Hps.
  assert ((0 - 1) `div` ps = -1)
    by (symmetry; apply (Z.div_unique (0 - 1) _ (-1) (ps - 1)); lia).
  split; simpl; rewrite ?H; done.
Qed.

End MoreMethodsFacts.

(** X1. Run to its end, [reversed(seq)] yields the items of the sequence
    last to first, and leaves the content as it was. *)
Theorem reversed_yields_reverse {A : Type} (s : FilePagedSequence A) (l : list A) :
  reachable s → content s l →
  ∃ s', __reversed__ s = Ok (rev l) s' ∧ content s' l.
Proof.
  intros Hs C. pose proof (reachable_content s _ Hs C) as R.
  destruct (reversed_ok s l R) as (s' & H & R').
  exists s'. split; [done|]. by apply represents_content.
Qed.

Lemma reversed_yields_reverse_witness :
  ∃ s', __reversed__ doctest_seq = Ok (rev [1; 2; 3; 4]%nat) s' ∧
        content s' [1; 2; 3; 4]%nat.
Proof.
  apply (reversed_yields_reverse doctest_seq [1; 2; 3; 4]%nat);
    [doctest_seq_reachable|doctest_seq_content].
Defined.

(** X2. After [seq[i] = v] with a valid index, the length is the same,
    [seq[i]] is [v], and every other position holds what it held. *)
Theorem setitem_then_getitem {A : Type} (s : FilePagedSequence A) (i : Z) (v : A) :
  reachable s → - _cur_len s ≤ i < _cur_len s →
  ∃ s1, __setitem__ (Int i) v s = Ok tt s1 ∧
        __len__ s1 = Ok (_cur_len s) s1 ∧
        (∃ s2, __getitem__ (Int i) s1 = Ok v s2) ∧
        ∀ j, - _cur_len s ≤ j < _cur_len s →
             effective (_cur_len s) j ≠ effective (_cur_len s) i →
             ∃ x s2 s3, __getitem__ (Int j) s = Ok x s2 ∧
                        __getitem__ (Int j) s1 = Ok x s3.
Proof.
  intros [l R]%reachable_represents Hi.
  pose proof (effective_valid _ _ Hi) as He.
  pose proof (rep_len _ _ R) as Hlen.
  destruct (setitem_ok s l i v R He) as (s1 & H1 & R1 & _).
  pose proof (rep_len _ _ R1) as Hlen1. rewrite length_insert, <- Hlen in Hlen1.
  exists s1. split; [done|]. split; [|split].
  - unfold __len__, bind, self, ret. by rewrite Hlen1.
  - destruct (getitem_ok s1 _ i R1) as (x & s2 & H2 & Hx & _); [by rewrite Hlen1|].
    rewrite Hlen1, list_lookup_insert_eq in Hx by lia.
    exists s2. congruence.
  - intros j Hj Hne.
    pose proof (effective_valid _ _ Hj) as Hej.
    destruct (getitem_ok s l j R Hej) as (x & s2 & H2 & Hx & _).
    destruct (getitem_ok s1 _ j R1) as (x' & s3 & H3 & Hx' & _); [by rewrite Hlen1|].
    rewrite Hlen1, list_lookup_insert_ne in Hx' by lia.
    exists x, s2, s3. split; [done|]. congruence.
Qed.

Lemma setitem_then_getitem_witness :
  ∃ s1, __setitem__ (Int (-3)) 9%nat doctest_seq = Ok tt s1 ∧
        __len__ s1 = Ok (_cur_len doctest_seq) s1 ∧
        (∃ s2, __getitem__ (Int (-3)) s1 = Ok 9%nat s2) ∧
        ∀ j, - _cur_len doctest_seq ≤ j < _cur_len doctest_seq →
             effective (_cur_len doctest_seq) j ≠ effective (_cur_len doctest_seq) (-3) →
             ∃ x s2 s3, __getitem__ (Int j) doctest_seq = Ok x s2 ∧
                        __getitem__ (Int j) s1 = Ok x s3.
Proof.
  apply (setitem_then_getitem doctest_seq (-3) 9%nat); [doctest_seq_reachable|].
  vm_compute. intuition discriminate.
Defined.

(** X3. [clear()] empties the sequence and touches neither the directory
    nor a page file; the sequence can be filled again. *)
Theorem clear_keeps_page_files {A : Type} (s : FilePagedSequence A) :
  reachable s →
  ∃ s', clear s = Ok tt s' ∧
        __len__ s' = Ok 0 s' ∧ content s' [] ∧
        tmpdir s' = tmpdir s ∧ disk_log s' = disk_log s ∧
        ∀ vs, ∃ s'', extend vs s' = Ok tt s'' ∧ content s'' vs.
Proof.
  intros [l R]%reachable_represents.
  pose proof (clear_ok s l R) as R'.
  exists (state_of (clear s)). split; [done|]. split; [done|].
  split; [by apply represents_content|]. do 2 (split; [done|]).
  intros vs. destruct (extend_ok _ _ vs R') as (s'' & H & R'' & _).
  exists s''. split; [done|]. by apply represents_content.
Qed.

Lemma clear_keeps_page_files_witness :
  ∃ s', clear doctest_seq = Ok tt s' ∧
        __len__ s' = Ok 0 s' ∧ content s' [] ∧
        tmpdir s' = tmpdir doctest_seq ∧ disk_log s' = disk_log doctest_seq ∧
        ∀ vs, ∃ s'', extend vs s' = Ok tt s'' ∧ content s'' vs.
Proof. apply (clear_keeps_page_files doctest_seq). doctest_seq_reachable. Defined.

(** X4. [extend(vs)] adds the items of [vs] at the end, in their order. *)
Theorem extend_appends_in_order {A : Type}
    (s : FilePagedSequence A) (l vs : list A) :
  reachable s → content s l →
  ∃ s', extend vs s = Ok tt s' ∧ content s' (l ++ vs) ∧
        __len__ s' = Ok (_cur_len s + Z.of_nat (length vs)) s'.
Proof.
  intros Hs C. pose proof (reachable_content s _ Hs C) as R.
  destruct (extend_ok s l vs R) as (s' & H & R' & _).
  exists s'. split; [done|]. split; [by apply represents_content|].
  unfold __len__, bind, self, ret.
  rewrite (rep_len _ _ R), (rep_len _ _ R'), length_app. do 2 f_equal. lia.
Qed.

Lemma extend_appends_in_order_witness :
  ∃ s', extend [5; 6; 7]%nat doctest_seq = Ok tt s' ∧
        content s' ([1; 2; 3; 4]%nat ++ [5; 6; 7]%nat) ∧
        __len__ s' = Ok (_cur_len doctest_seq + Z.of_nat (length [5; 6; 7]%nat)) s'.
Proof.
  apply (extend_appends_in_order doctest_seq [1; 2; 3; 4]%nat [5; 6; 7]%nat);
    [doctest_seq_reachable|doctest_seq_content].
Defined.

(** X5. Popping as many times as there are items at the end returns
    these items last to first and leaves the others; once nothing is
    left, one more [pop()] raises [IndexError]. *)
Theorem pops_return_last_first {A : Type}
    (s : FilePagedSequence A) (l vs : list A) :
  reachable s → content s (l ++ vs) →
  ∃ s', pops (length vs) [] s = Ok (rev vs) s' ∧ content s' l ∧
        (l = [] → pop (Int (-1)) s' = Raise IndexError s').
Proof.
  intros Hs C. pose proof (reachable_content s _ Hs C) as R.
  destruct (pops_ok s l vs [] R) as (s' & H & R').
  exists s'. split; [done|]. split; [by apply represents_content|].
  intros ->. apply pop_empty. by rewrite (rep_len _ _ R').
Qed.

Lemma pops_return_last_first_witness :
  ∃ s', pops (length [2; 3; 4]%nat) [] doctest_seq = Ok (rev [2; 3; 4]%nat) s' ∧
        content s' [1]%nat ∧
        ([1]%nat = [] → pop (Int (-1)) s' = Raise IndexError s').
Proof.
  apply (pops_return_last_first doctest_seq [1]%nat [2; 3; 4]%nat);
    [doctest_seq_reachable|doctest_seq_content].
Defined.

(** X6. Building a sequence from [items] creates the directory at most
    once, writes each page that was left behind once, in order, and
    reads, lists or removes nothing. *)
Theorem build_writes_each_left_page_once {A : Type} (items : list A) (page_size : Z) :
  1 ≤ page_size →
  ∃ s, __init__ items page_size = Ok tt s ∧
       disk_log s = pages_written ((Z.of_nat (length items) - 1) `div` page_size).
Proof.
  intros Hps. unfold __init__.
  destruct (extend_appended_only _ 0 items (new_instance_appended_only page_size Hps))
    as (s & H & Ha).
  exists s. split; [done|].
  destruct (extend_ok _ _ items (new_instance_represents page_size Hps)) as (s1 & H1 & _ & E).
  rewrite H in H1. injection H1 as <-. simpl in E.
  rewrite (ao_log _ _ Ha), E. by rewrite Z.add_0_l.
Qed.

Lemma build_writes_each_left_page_once_witness :
  1 ≤ 3 ∧
  ∃ s : FilePagedSequence nat,
    __init__ [1; 2; 3; 4; 5; 6; 7]%nat 3 = Ok tt s ∧
    disk_log s = pages_written ((Z.of_nat (length [1; 2; 3; 4; 5; 6; 7]%nat) - 1) `div` 3).
Proof.
  split; [lia|]. apply (build_writes_each_left_page_once [1; 2; 3; 4; 5; 6; 7]%nat 3). lia.
Defined.

(** ** [limit_string] *)

Section StringsFacts.

Context {char : Type}.

(** X7. [limit_string] raises [ValueError] exactly when the cut indicator
    is longer than the limit; otherwise the result is never longer than
    the limit, and a string within the limit is returned as it is. *)
Theorem limit_string_respects_limit
    (s : list char) (char_limit : Z) (cut_indicator : list char) (middle_cut : bool) :
  match limit_string s char_limit cut_indicator middle_cut with
  | inl e => e = ValueError ∧ char_limit < Z.of_nat (length cut_indicator)
  | inr r =>
      Z.of_nat (length cut_indicator) ≤ char_limit ∧
      Z.of_nat (length r) = Z.of_nat (length s) `min` char_limit ∧
      (Z.of_nat (length s) ≤ char_limit → r = s)
  end.
Proof.
  unfold limit_string. cbv zeta.
  case_decide; [split; [done|lia]|].
  case_decide; [|split; [lia|split; [lia|done]]].
  pose proof (Z.div_mod (char_limit - Z.of_nat (length cut_indicator)) 2 ltac:(lia)).
  pose proof (Z.mod_pos_bound (char_limit - Z.of_nat (length cut_indicator)) 2 ltac:(lia)).
  destruct (middle_cut && _) eqn:E.
  - apply andb_true_iff in E as [_ E%negb_true_iff%Z.eqb_neq].
    split; [lia|]. split; [|lia].
    unfold slice_to, slice_from. rewrite !length_app, length_take, length_drop.
    repeat case_decide; lia.
  - split; [lia|]. split; [|lia].
    unfold slice_to. rewrite !length_app, length_take.
    repeat case_decide; lia.
Qed.

(** X8. A string over the limit is cut to exactly [char_limit]
    characters: a prefix, the cut indicator and, with [middle_cut], a
    suffix that is as long as the prefix or one character shorter. *)
Theorem limit_string_cut_shape
    (s : list char) (char_limit : Z) (cut_indicator : list char) (middle_cut : bool) :
  Z.of_nat (length cut_indicator) ≤ char_limit < Z.of_nat (length s) →
  let real_limit := char_limit - Z.of_nat (length cut_indicator) in
  let kept_right := if middle_cut then Z.to_nat (real_limit `div` 2) else 0%nat in
  let kept_left := (Z.to_nat real_limit - kept_right)%nat in
  limit_string s char_limit cut_indicator middle_cut =
    inr (take kept_left s ++ cut_indicator ++ drop (length s - kept_right) s) ∧
  (kept_left + kept_right)%nat = Z.to_nat real_limit ∧
  (kept_right ≤ kept_left ≤ kept_right + (if middle_cut then 1 else Z.to_nat real_limit))%nat.
Proof.
  intros Hn real_limit kept_right kept_left.
  pose proof (Z.div_mod real_limit 2 ltac:(lia)) as Hdm.
  pose proof (Z.mod_pos_bound real_limit 2 ltac:(lia)) as Hmb.
  assert (0 ≤ real_limit `div` 2) by (apply Z.div_pos; lia).
  split; [|subst kept_left kept_right; destruct middle_cut; lia].
  unfold limit_string. cbv zeta. fold real_limit.
  rewrite decide_False by lia. rewrite decide_True by lia.
  destruct middle_cut; simpl.
  - destruct (real_limit `div` 2 =? 0) eqn:E; simpl.
    + apply Z.eqb_eq in E. subst kept_left kept_right. rewrite E.
      unfold slice_to. rewrite decide_False by lia.
      rewrite (drop_ge s) by lia. rewrite app_nil_r.
      by replace (Z.to_nat real_limit - Z.to_nat 0)%nat with (Z.to_nat real_limit) by lia.
    + apply Z.eqb_neq in E. subst kept_left kept_right.
      unfold slice_to, slice_from.
      rewrite decide_False by lia. rewrite decide_True by lia.
      do 2 f_equal; [f_equal; lia|]. do 2 f_equal. lia.
  - subst kept_left kept_right. unfold slice_to. rewrite decide_False by lia.
    rewrite !Nat.sub_0_r. rewrite (drop_ge s) by lia. by rewrite app_nil_r.
Qed.

End StringsFacts.

Lemma limit_string_cut_shape_witness :
  Z.of_nat (length [0; 0; 0; 0; 0]%nat) ≤ 10
    < Z.of_nat (length [1; 2; 3; 4; 5; 6; 7; 8; 9; 10; 11]%nat) ∧
  limit_string [1; 2; 3; 4; 5; 6; 7; 8; 9; 10; 11]%nat 10 [0; 0; 0; 0; 0]%nat true =
    inr ([1; 2; 3] ++ [0; 0; 0; 0; 0] ++ [10; 11])%nat.
Proof.
  split; [simpl; lia|].
  apply (limit_string_cut_shape [1; 2; 3; 4; 5; 6; 7; 8; 9; 10; 11]%nat 10
           [0; 0; 0; 0; 0]%nat true).
  simpl. lia.
Defined.

(** ** [replace_segment] *)

Section SegmentsFacts.

Context {char : Type} `{EqDecision char}.
Implicit Types (s sep seg : list char) (segments : list (list char)).

Lemma split_scan_nonempty sep s cur skip : split_scan sep s cur skip ≠ [].
Proof.
  revert cur skip. induction s as [|c s IH]; intros cur skip; simpl; [done|].
  destruct skip; [|apply IH]. case_decide; [done|apply IH].
Qed.

Lemma str_join_cons sep seg segments :
  segments ≠ [] → str_join sep (seg :: segments) = seg ++ sep ++ str_join sep segments.
Proof. by destruct segments. Qed.

Lemma str_join_split_scan sep s cur skip :
  (skip < length sep)%nat →
  str_join sep (split_scan sep s cur skip) = cur ++ drop skip s.
Proof.
  revert cur skip. induction s as [|c s IH]; intros cur skip Hskip.
  - simpl. by rewrite drop_nil, app_nil_r.
  - cbn [split_scan]. destruct skip as [|skip].
    + case_decide as Hp.
      * rewrite str_join_cons by apply split_scan_nonempty.
        rewrite IH by lia. simpl. f_equal.
        destruct Hp as [rest Hrest]. rewrite Hrest.
        destruct sep as [|c' sep]; [simpl in Hskip; lia|].
        injection Hrest as -> ->. simpl. rewrite Nat.sub_0_r.
        by rewrite drop_app_length.
      * rewrite IH by lia. simpl. by rewrite <- app_assoc.
    + rewrite IH by lia. by rewrite skipn_cons.
Qed.

Lemma replace_segment_join s i new sep segments :
  str_split s sep = inr segments →
  replace_segment s i new sep =
    match list_position (length segments) i with
    | None => inl (Builtin IndexError)
    | Some j => inr (str_join sep (<[j := new]> segments))
    end.
Proof. unfold replace_segment. by intros ->. Qed.


(** What is before and after a segment in the joined string. *)
Lemma str_join_head sep seg (after : list (list char)) :
  str_join sep (seg :: after) = seg ++ concat ((λ s, sep ++ s) <$> after).
Proof.
  revert seg. induction after as [|a after IH]; intros seg.
  - simpl. by rewrite app_nil_r.
  - rewrite str_join_cons by done. rewrite IH. simpl. by rewrite <- !app_assoc.
Qed.

Lemma str_join_middle sep (before after : list (list char)) seg :
  str_join sep (before ++ seg :: after) =
    concat ((λ s, s ++ sep) <$> before) ++ seg ++ concat ((λ s, sep ++ s) <$> after).
Proof.
  induction before as [|b before IH].
  - apply str_join_head.
  - rewrite <- app_comm_cons, str_join_cons by (by destruct before).
    rewrite IH. simpl. by rewrite <- !app_assoc.
Qed.

Lemma split_scan_no_separator sep s cur :
  sep ≠ [] → (∀ pre post, s ≠ pre ++ sep ++ post) →
  split_scan sep s cur 0 = [cur ++ s].
Proof.
  intros Hsep. revert cur. induction s as [|c s IH]; intros cur Hno.
  - simpl. by rewrite app_nil_r.
  - cbn [split_scan]. rewrite decide_False.
    + rewrite IH; [by rewrite <- app_assoc|].
      intros pre post ->. by apply (Hno (c :: pre) post).
    + intros [rest Hrest]. by apply (Hno [] rest).
Qed.

End SegmentsFacts.

Lemma list_position_Some (n : nat) (i : Z) (j : nat) :
  list_position n i = Some j →
  - Z.of_nat n ≤ i < Z.of_nat n ∧ Z.of_nat j = effective (Z.of_nat n) i ∧ (j < n)%nat.
Proof.
  unfold list_position, effective. repeat case_decide; intros [= <-]; lia.
Qed.

Lemma list_position_None (n : nat) (i : Z) :
  list_position n i = None → ¬ - Z.of_nat n ≤ i < Z.of_nat n.
Proof. unfold list_position. repeat case_decide; intros [=]; lia. Qed.

(** X9. [replace_segment] raises [ValueError] for an empty separator and
    [IndexError] for a segment index out of range; otherwise, with the
    string split into its segments and [j] the index counted from the
    left (from the right for a negative index), the string is the first
    [j] segments, each followed by the separator, then segment [j], then
    the other segments, each preceded by the separator, and the result
    is the same with the new content in the place of segment [j]. *)
Theorem replace_segment_only_touches_segment {char : Type} `{EqDecision char}
    (a_string : list char) (segment_index : Z) (new_content sep : list char) :
  match replace_segment a_string segment_index new_content sep with
  | inl e =>
      (sep = [] ∧ e = ValueError) ∨
      (e = Builtin IndexError ∧
       ∃ segments, str_split a_string sep = inr segments ∧
         ¬ - Z.of_nat (length segments) ≤ segment_index < Z.of_nat (length segments))
  | inr r =>
      ∃ segments j seg,
        str_split a_string sep = inr segments ∧
        - Z.of_nat (length segments) ≤ segment_index < Z.of_nat (length segments) ∧
        Z.of_nat j = effective (Z.of_nat (length segments)) segment_index ∧
        segments !! j = Some seg ∧
        a_string = concat ((λ s, s ++ sep) <$> take j segments) ++ seg ++
                   concat ((λ s, sep ++ s) <$> drop (S j) segments) ∧
        r = concat ((λ s, s ++ sep) <$> take j segments) ++ new_content ++
            concat ((λ s, sep ++ s) <$> drop (S j) segments)
  end.
Proof.
  unfold replace_segment.
  destruct (str_split a_string sep) as [e|segments] eqn:Hsplit.
  - left. unfold str_split in Hsplit. destruct sep; [|done].
    by injection Hsplit as <-.
  - assert (Hjoin : str_join sep segments = a_string).
    { unfold str_split in Hsplit. destruct sep as [|c sep]; [done|].
      injection Hsplit as <-. rewrite str_join_split_scan by (simpl; lia).
      by rewrite drop_0. }
    destruct (list_position (length segments) segment_index) as [j|] eqn:Hpos.
    + apply list_position_Some in Hpos as (Hin & Hj & Hlt).
      destruct (lookup_lt_is_Some_2 segments j Hlt) as [seg Hseg].
      pose proof (take_drop_middle _ _ _ Hseg) as Hmid.
      exists segments, j, seg. do 4 (split; [done|]). split.
      * by rewrite <- str_join_middle, Hmid.
      * rewrite <- str_join_middle. f_equal. rewrite <- Hmid at 1.
        rewrite insert_app_r_alt by (rewrite length_take; lia).
        rewrite length_take.
        by replace (j - j `min` length segments)%nat with 0%nat by lia.
    + right. split; [done|]. exists segments. split; [done|].
      by apply list_position_None.
Qed.

(** X10. Joining the segments of a string gives the string back, and so
    does replacing a segment by itself. *)
Theorem replace_segment_same_content {char : Type} `{EqDecision char}
    (a_string : list char) (segment_index : Z) (sep : list char)
    (segments : list (list char)) (j : nat) (seg : list char) :
  str_split a_string sep = inr segments →
  list_position (length segments) segment_index = Some j →
  segments !! j = Some seg →
  replace_segment a_string segment_index seg sep = inr a_string ∧
  str_join sep segments = a_string.
Proof.
  intros Hsplit Hpos Hseg.
  assert (Hjoin : str_join sep segments = a_string).
  { unfold str_split in Hsplit. destruct sep as [|c sep]; [done|].
    injection Hsplit as <-. rewrite str_join_split_scan by (simpl; lia).
    by rewrite drop_0. }
  split; [|done].
  unfold replace_segment. rewrite Hsplit, Hpos.
  rewrite list_insert_id by done. by rewrite Hjoin.
Qed.

Lemma replace_segment_same_content_witness :
  replace_segment [1; 0; 2; 0; 3; 0; 4]%nat 1 [2]%nat [0]%nat =
    inr [1; 0; 2; 0; 3; 0; 4]%nat ∧
  str_join [0]%nat [[1]; [2]; [3]; [4]]%nat = [1; 0; 2; 0; 3; 0; 4]%nat.
Proof.
  apply (replace_segment_same_content [1; 0; 2; 0; 3; 0; 4]%nat 1 [0]%nat
           [[1]; [2]; [3]; [4]]%nat 1%nat [2]%nat); reflexivity.
Defined.

(** X11. A string that does not contain the separator is its only
    segment: index 0 or -1 replaces all of it, any other index raises
    [IndexError]. *)
Theorem replace_segment_without_separator {char : Type} `{EqDecision char}
    (a_string : list char) (segment_index : Z) (new_content sep : list char) :
  sep ≠ [] → (∀ pre post, a_string ≠ pre ++ sep ++ post) →
  replace_segment a_string segment_index new_content sep =
    if decide (segment_index = 0 ∨ segment_index = -1)
    then inr new_content else inl (Builtin IndexError).
Proof.
  intros Hsep Hno. unfold replace_segment, str_split.
  destruct sep as [|c sep]; [done|].
  rewrite split_scan_no_separator by done. unfold list_position. simpl.
  repeat case_decide; try lia; try done.
  - by replace (Z.to_nat (segment_index + Z.of_nat 1)) with 0%nat by lia.
  - by replace (Z.to_nat segment_index) with 0%nat by lia.
Qed.

Lemma replace_segment_without_separator_witness :
  replace_segment [1; 2; 3]%nat (-1) [7; 7]%nat [0]%nat = inr [7; 7]%nat.
Proof.
  apply (replace_segment_without_separator [1; 2; 3]%nat (-1) [7; 7]%nat [0]%nat).
  - discriminate.
  - intros pre post H.
    assert (Hin : 0%nat ∈ [1; 2; 3]%nat) by (rewrite H; set_solver).
    rewrite !elem_of_cons, elem_of_nil in Hin. lia.
Defined.

Example replace_segment_doctest :
  replace_segment [1; 0; 2; 0; 3; 0; 4]%nat 1 [9; 9; 9]%nat [0]%nat =
    inr [1; 0; 9; 9; 9; 0; 3; 0; 4]%nat ∧
  replace_segment [1; 0; 0; 2; 0; 0; 3; 0; 0; 4]%nat 2 [9; 9; 9]%nat [0; 0]%nat =
    inr [1; 0; 0; 2; 0; 0; 9; 9; 9; 0; 0; 4]%nat.
Proof. split; reflexivity. Qed.

(** ** [LimitedDict] *)

Section LimitedDictFacts.

Context {K V : Type} `{EqDecision K}.
Implicit Types (key : K) (value : V) (items : list (K * V)) (pairs : list (K * V))
  (self : LimitedDict K V).

Lemma length_od_setitem key value items :
  length (od_setitem key value items) =
    if decide (key ∈ items.*1) then length items else S (length items).
Proof.
  unfold od_setitem. case_decide.
  - by rewrite length_fmap.
  - rewrite length_app. simpl. lia.
Qed.

Lemma od_setitem_keys key value items :
  (od_setitem key value items).*1 =
    if decide (key ∈ items.*1) then items.*1 else items.*1 ++ [key].
Proof.
  unfold od_setitem. case_decide.
  - rewrite <- list_fmap_compose. apply list_fmap_ext. intros i [k v] _. simpl.
    by case_decide.
  - by rewrite fmap_app.
Qed.

Lemma od_getitem_setitem key value items :
  od_getitem key (od_setitem key value items) = inr value.
Proof.
  unfold od_setitem. case_decide as Hin.
  - induction items as [|[k v] items IH]; [by apply elem_of_nil in Hin|].
    rewrite fmap_cons. simpl in *.
    destruct (decide (k = key)) as [->|Hne]; simpl.
    + by rewrite decide_True.
    + rewrite decide_False by done.
      apply elem_of_cons in Hin as [?|Hin]; [done|]. by apply IH.
  - induction items as [|[k v] items IH]; simpl.
    + by rewrite decide_True.
    + apply not_elem_of_cons in Hin as [Hne Hin]. simpl in Hne.
      rewrite decide_False by done. by apply IH.
Qed.

Lemma ld_setitem_step key value self :
  ld_wf self →
  ∃ self', ld_setitem key value self = inr self' ∧ ld_wf self' ∧
    _maxlen self' = _maxlen self ∧
    od_items self' =
      if decide (key ∈ (od_items self).*1)
      then (λ kv, if decide (kv.1 = key) then (kv.1, value) else kv) <$> od_items self
      else if decide (Z.of_nat (length (od_items self)) < _maxlen self)
           then od_items self ++ [(key, value)]
           else drop 1 (od_items self ++ [(key, value)]).
Proof.
  intros [Hnd Hlen]. unfold ld_setitem. cbv zeta.
  rewrite length_od_setitem. pose proof (od_setitem_keys key value (od_items self)) as Hkeys.
  unfold od_setitem in *. destruct (decide (key ∈ (od_items self).*1)) as [Hin|Hin].
  - rewrite decide_False by lia. eexists. split; [done|]. split; [|done].
    split; simpl; [by rewrite Hkeys|]. rewrite length_fmap. lia.
  - case_decide as Hfull.
    + rewrite decide_False by lia.
      destruct (od_items self ++ [(key, value)]) as [|kv items'] eqn:E.
      { by destruct (od_items self). }
      simpl. eexists. split; [done|]. split; [|done].
      assert (Hnd' : NoDup (kv :: items').*1).
      { rewrite <- E, fmap_app. apply NoDup_app. split; [done|]. split.
        - intros k Hk [->|[]%elem_of_nil]%elem_of_cons. done.
        - apply NoDup_singleton. }
      apply (f_equal length) in E. rewrite length_app in E. simpl in E.
      split; simpl; [by apply NoDup_cons in Hnd' as [_ ?]|lia].
    + rewrite decide_True by lia. eexists. split; [done|]. split; [|done].
      split; simpl.
      * rewrite fmap_app. apply NoDup_app. split; [done|]. split.
        -- intros k Hk [->|[]%elem_of_nil]%elem_of_cons. done.
        -- apply NoDup_singleton.
      * rewrite length_app. simpl. lia.
Qed.

Lemma ld_update_wf pairs self :
  ld_wf self →
  ∃ self', ld_update pairs self = inr self' ∧ ld_wf self' ∧ _maxlen self' = _maxlen self.
Proof.
  revert self. induction pairs as [|[k v] pairs IH]; intros self Hwf; simpl.
  - by exists self.
  - destruct (ld_setitem_step k v self Hwf) as (self1 & -> & Hwf1 & Hm1 & _).
    destruct (IH self1 Hwf1) as (self2 & H2 & Hwf2 & Hm2).
    exists self2. split; [done|]. split; [done|congruence].
Qed.


Lemma od_getitem_middle key value (items1 items2 : list (K * V)) :
  key ∉ items1.*1 → od_getitem key (items1 ++ (key, value) :: items2) = inr value.
Proof.
  induction items1 as [|[k v] items1 IH]; intros Hin; simpl.
  - by rewrite decide_True.
  - apply not_elem_of_cons in Hin as [Hne Hin]. simpl in Hne.
    rewrite decide_False by done. by apply IH.
Qed.

Lemma ld_update_fresh (pairs : list (K * V)) self :
  ld_wf self → NoDup ((od_items self).*1 ++ pairs.*1) →
  ld_update pairs self =
    inr (mkLimitedDict (_maxlen self)
           (drop (length (od_items self ++ pairs) - Z.to_nat (_maxlen self))
                 (od_items self ++ pairs))).
Proof.
  revert self. induction pairs as [|[k v] pairs IH]; intros [m items] [Hnd Hlen] Hfresh;
    simpl in *.
  - rewrite app_nil_r. replace (length items - Z.to_nat m)%nat with 0%nat by lia. done.
  - apply NoDup_app in Hfresh as (_ & Hdisj & Hnd').
    assert (Hk : k ∉ items.*1) by (intros Hk; apply (Hdisj k Hk); left).
    destruct (ld_setitem_step k v (mkLimitedDict m items) (conj Hnd Hlen))
      as (self1 & -> & Hwf1 & Hm1 & Hitems1). simpl in *.
    rewrite decide_False in Hitems1 by done.
    destruct self1 as [m1 items1]. simpl in *. subst m1.
    rewrite IH; [|done|]; simpl.
    + f_equal. f_equal. subst items1. case_decide.
      * rewrite <- app_assoc. simpl. done.
      * assert (length items = Z.to_nat m) by lia.
        destruct items as [|kv items]; simpl in *.
        -- replace m with 0 by lia. simpl. rewrite !Nat.sub_0_r.
           by rewrite (drop_all pairs).
        -- rewrite drop_0, <- app_assoc. simpl.
           rewrite !length_app. simpl.
           replace (length items + S (length pairs) - Z.to_nat m)%nat
             with (length pairs) by lia.
           replace (S (length items + S (length pairs)) - Z.to_nat m)%nat
             with (S (length pairs)) by lia.
           done.
    + apply NoDup_app. apply NoDup_cons in Hnd' as [Hk' Hnd'].
      destruct Hwf1 as [Hnd1 _]. split; [done|]. split; [|done].
      intros k' Hk1 Hk2. subst items1.
      assert (k' ∈ (items ++ [(k, v)]).*1) as Hin.
      { case_decide; [done|]. rewrite <- (take_drop 1 (items ++ _)), fmap_app.
        apply elem_of_app. by right. }
      rewrite fmap_app in Hin. apply elem_of_app in Hin as [Hin|Hin].
      * apply (Hdisj k' Hin). by right.
      * apply list_elem_of_singleton in Hin. simpl in Hin. by subst k'.
Qed.

Lemma ld_update_from_own (copied todo : list (K * V)) (m : Z) :
  NoDup (copied ++ todo).*1 → Z.of_nat (length (copied ++ todo)) ≤ m →
  ld_update_from todo.*1 (copied ++ todo) (mkLimitedDict m copied) =
    inr (mkLimitedDict m (copied ++ todo)).
Proof.
  revert copied. induction todo as [|[k v] todo IH]; intros copied Hnd Hlen; simpl.
  - by rewrite app_nil_r.
  - assert (Hk : k ∉ copied.*1).
    { rewrite fmap_app in Hnd. apply NoDup_app in Hnd as (_ & Hdisj & _).
      intros Hk. apply (Hdisj k Hk). left. }
    rewrite od_getitem_middle by done.
    rewrite length_app in Hlen. simpl in Hlen.
    destruct (ld_setitem_step k v (mkLimitedDict m copied)) as (self1 & -> & _ & Hm1 & Hitems1).
    { split; simpl; [|lia]. rewrite fmap_app in Hnd. by apply NoDup_app in Hnd as (? & _). }
    simpl in *. rewrite decide_False in Hitems1 by done.
    rewrite decide_True in Hitems1 by lia.
    destruct self1 as [m1 items1]. simpl in *. subst m1 items1.
    replace (copied ++ (k, v) :: todo) with ((copied ++ [(k, v)]) ++ todo)
      by (by rewrite <- app_assoc).
    apply IH.
    + by rewrite <- app_assoc.
    + rewrite <- app_assoc, length_app. simpl. lia.
Qed.

End LimitedDictFacts.

(** X12. A [LimitedDict] made with a limit [maxlen >= 0] never holds more
    than [maxlen] items, whatever is set or updated afterwards. *)
Theorem limited_dict_never_exceeds_maxlen {K V : Type} `{EqDecision K}
    (pairs more : list (K * V)) (maxlen : Z) :
  0 ≤ maxlen →
  ∃ d d', ld_init pairs (Some maxlen) = inr d ∧ ld_update more d = inr d' ∧
          _maxlen d = maxlen ∧ _maxlen d' = maxlen ∧
          Z.of_nat (length (od_items d)) ≤ maxlen ∧
          Z.of_nat (length (od_items d')) ≤ maxlen ∧
          NoDup (od_items d').*1.
Proof.
  intros Hm. unfold ld_init.
  destruct (ld_update_wf pairs (mkLimitedDict maxlen [])) as (d & Hd & [Hnd Hlen] & Hmd).
  { split; simpl; [constructor|lia]. }
  destruct (ld_update_wf more d (conj Hnd Hlen)) as (d' & Hd' & [Hnd' Hlen'] & Hmd').
  simpl in *. exists d, d'. rewrite Hmd in *. rewrite Hmd' in *. done.
Qed.

Lemma limited_dict_never_exceeds_maxlen_witness :
  0 ≤ 3 ∧
  ∃ d d', ld_init [(2, 20); (1, 10)]%nat (Some 3) = inr d ∧
          ld_update [(3, 30); (4, 40); (1, 11)]%nat d = inr d' ∧
          _maxlen d = 3 ∧ _maxlen d' = 3 ∧
          Z.of_nat (length (od_items d)) ≤ 3 ∧
          Z.of_nat (length (od_items d')) ≤ 3 ∧
          NoDup (od_items d').*1.
Proof.
  split; [lia|].
  apply (limited_dict_never_exceeds_maxlen [(2, 20); (1, 10)]%nat
           [(3, 30); (4, 40); (1, 11)]%nat 3). lia.
Defined.

(** X13. Setting an item in a [LimitedDict] with [maxlen >= 1]: a known
    key keeps its place and gets the new value; a new key goes to the end
    and, when the dict was full, the oldest item is dropped and no
    other.  The item just set can be read back. *)
Theorem limited_dict_setitem_drops_oldest {K V : Type} `{EqDecision K}
    (key : K) (value : V) (self : LimitedDict K V) :
  NoDup (od_items self).*1 →
  Z.of_nat (length (od_items self)) ≤ _maxlen self → 1 ≤ _maxlen self →
  ∃ self', ld_setitem key value self = inr self' ∧
    _maxlen self' = _maxlen self ∧
    od_getitem key (od_items self') = inr value ∧
    od_items self' =
      if decide (key ∈ (od_items self).*1)
      then (λ kv, if decide (kv.1 = key) then (kv.1, value) else kv) <$> od_items self
      else if decide (Z.of_nat (length (od_items self)) < _maxlen self)
           then od_items self ++ [(key, value)]
           else drop 1 (od_items self) ++ [(key, value)].
Proof.
  intros Hnd Hlen Hm.
  destruct (ld_setitem_step key value self (conj Hnd Hlen)) as (self' & H' & _ & Hm' & Hitems).
  exists self'. split; [done|]. split; [done|].
  pose proof (od_getitem_setitem key value (od_items self)) as Hget.
  unfold od_setitem in Hget. rewrite Hitems.
  destruct (decide (key ∈ (od_items self).*1)) as [Hin|Hin]; [done|].
  case_decide; [done|].
  destruct (od_items self) as [|kv items] eqn:E; [simpl in *; lia|].
  simpl. rewrite drop_0. split; [|done].
  apply not_elem_of_cons in Hin as [_ Hin]. by apply od_getitem_middle.
Qed.

Lemma limited_dict_setitem_drops_oldest_witness :
  ∃ self', ld_setitem 4%nat 40%nat (mkLimitedDict 3 [(2, 20); (1, 10); (3, 30)]%nat) = inr self' ∧
    _maxlen self' = 3 ∧
    od_getitem 4%nat (od_items self') = inr 40%nat ∧
    od_items self' = [(1, 10); (3, 30); (4, 40)]%nat.
Proof.
  destruct (limited_dict_setitem_drops_oldest 4%nat 40%nat
              (mkLimitedDict 3 [(2, 20); (1, 10); (3, 30)]%nat))
    as (self' & H1 & H2 & H3 & H4).
  - simpl. apply (bool_decide_unpack _). vm_compute. exact I.
  - simpl. lia.
  - simpl. lia.
  - exists self'. repeat split; try done.
Defined.

(** X14. [LimitedDict.fromkeys] of distinct keys keeps the last [maxlen]
    of them, in their order, each with the given value; without
    [maxlen] it raises [TypeError]. *)
Theorem limited_dict_fromkeys_keeps_last {K V : Type} `{EqDecision K}
    (iterable : list K) (value : V) (maxlen : Z) :
  NoDup iterable → 0 ≤ maxlen →
  ld_fromkeys iterable value (Some maxlen) =
    inr (mkLimitedDict maxlen
           ((λ key, (key, value)) <$>
              drop (length iterable - Z.to_nat maxlen) iterable)) ∧
  ld_fromkeys iterable value None = inl TypeError.
Proof.
  intros Hnd Hm. split; [|done]. unfold ld_fromkeys, ld_init. simpl.
  rewrite ld_update_fresh; simpl.
  - by rewrite length_fmap, fmap_drop.
  - split; simpl; [constructor|lia].
  - rewrite <- list_fmap_compose. by rewrite list_fmap_id.
Qed.

Lemma limited_dict_fromkeys_keeps_last_witness :
  ld_fromkeys [1; 2; 3; 4]%nat 0%nat (Some 3) =
    inr (mkLimitedDict 3
           ((λ key, (key, 0%nat)) <$> drop (length [1; 2; 3; 4]%nat - Z.to_nat 3) [1; 2; 3; 4]%nat)) ∧
  ld_fromkeys [1; 2; 3; 4]%nat 0%nat None = inl TypeError.
Proof.
  apply (limited_dict_fromkeys_keeps_last [1; 2; 3; 4]%nat 0%nat 3).
  - apply (bool_decide_unpack _). vm_compute. exact I.
  - lia.
Defined.

(** X15. [copy()] gives a dict with the same items in the same order and
    the same limit. *)
Theorem limited_dict_copy_is_equal {K V : Type} `{EqDecision K}
    (self : LimitedDict K V) :
  NoDup (od_items self).*1 →
  Z.of_nat (length (od_items self)) ≤ _maxlen self →
  ld_copy self = inr self.
Proof.
  intros Hnd Hlen. unfold ld_copy. destruct self as [m items]. simpl in *.
  by apply (ld_update_from_own [] items m).
Qed.

Lemma limited_dict_copy_is_equal_witness :
  ld_copy (mkLimitedDict 3 [(2, 20); (1, 10)]%nat) =
    inr (mkLimitedDict 3 [(2, 20); (1, 10)]%nat).
Proof.
  apply (limited_dict_copy_is_equal (mkLimitedDict 3 [(2, 20); (1, 10)]%nat)).
  - simpl. apply (bool_decide_unpack _). vm_compute. exact I.
  - simpl. lia.
Defined.

Example limited_dict_doctest :
  let d1 := mkLimitedDict 3 [(2, 2); (1, 1); (3, 3)]%nat in
  let d2 := mkLimitedDict 3 [(1, 1); (3, 3); (4, 4)]%nat in
  let d3 := mkLimitedDict 3 [(4, 4); (7, 42); (0, 1)]%nat in
  (∃ d0, ld_init [(2, 2); (1, 1)]%nat (Some 3) = inr d0 ∧ ld_setitem 3%nat 3%nat d0 = inr d1) ∧
  ld_setitem 4%nat 4%nat d1 = inr d2 ∧
  ld_update [(7, 42); (0, 1)]%nat d2 = inr d3 ∧
  ld_init [(2, 2)]%nat None = inl TypeError.
Proof. split; [eexists; split|]; vm_compute; done. Qed.

(** ** [NormalizedDict] and [CIDict] *)

Section NormalizedDictFacts.

Context {K NK V : Type} `{Countable NK} `{EqDecision V}.

Variable normalize_key : K → NK.

Implicit Types (key : K) (value : V) (pairs : list (K * V)) (keys : list K)
  (self other acc : NormalizedDict K NK V).

Lemma nd_setitem_wf key value self : nd_wf normalize_key self → nd_wf normalize_key (nd_setitem normalize_key key value self).
Proof.
  intros Hwf nkey kv. unfold nd_setitem. simpl.
  destruct (decide (normalize_key key = nkey)) as [<-|Hne].
  - rewrite lookup_insert_eq. by intros [= <-].
  - rewrite lookup_insert_ne by done. apply Hwf.
Qed.

Lemma nd_update_wf pairs self : nd_wf normalize_key self → nd_wf normalize_key (nd_update normalize_key pairs self).
Proof.
  revert self. induction pairs as [|[k v] pairs IH]; intros self Hwf; [done|].
  apply IH. by apply nd_setitem_wf.
Qed.

Lemma nd_empty_wf : nd_wf normalize_key (mkNormalizedDict ∅ : NormalizedDict K NK V).
Proof. intros nkey kv. simpl. by rewrite lookup_empty. Qed.

Lemma nd_delitem_wf key self self' :
  nd_wf normalize_key self → nd_delitem normalize_key key self = inr self' → nd_wf normalize_key self'.
Proof.
  unfold nd_delitem. intros Hwf Hdel. destruct (_ !! _); [|done].
  injection Hdel as <-. intros nkey kv. simpl. intros Hl.
  apply lookup_delete_Some in Hl as [_ Hl]. by apply Hwf.
Qed.

Lemma nd_update_keys_wf keys other self self' :
  nd_wf normalize_key self → nd_update_keys normalize_key keys other self = inr self' → nd_wf normalize_key self'.
Proof.
  revert self. induction keys as [|k keys IH]; intros self Hwf; simpl.
  - by intros [= <-].
  - destruct (nd_getitem normalize_key k other); [done|]. apply IH. by apply nd_setitem_wf.
Qed.

Lemma nd_reachable_wf self : nd_reachable normalize_key self → nd_wf normalize_key self.
Proof.
  induction 1.
  - apply nd_update_wf, nd_empty_wf.
  - by apply nd_setitem_wf.
  - by eapply nd_delitem_wf.
  - by apply nd_update_wf.
  - eapply nd_update_keys_wf; [|done]. apply nd_empty_wf.
  - apply nd_empty_wf.
Qed.

Lemma nd_getitem_setitem key value key' self :
  nd_getitem normalize_key key' (nd_setitem normalize_key key value self) =
    if decide (normalize_key key' = normalize_key key) then inr value
    else nd_getitem normalize_key key' self.
Proof.
  unfold nd_getitem, nd_setitem. simpl. case_decide as Hk.
  - by rewrite Hk, lookup_insert_eq.
  - by rewrite lookup_insert_ne.
Qed.

Lemma dict_normalized_items self :
  dict (nd_normalized_items self) = snd <$> _mapping self.
Proof.
  unfold dict, nd_normalized_items.
  assert (Hgen : ∀ (l : list (NK * (K * V))) (acc : gmap NK V),
    NoDup l.*1 →
    foldl (λ d kv, <[kv.1 := kv.2]> d) acc ((λ entry, (entry.1, entry.2.2)) <$> l) =
      (snd <$> (list_to_map l : gmap NK (K * V))) ∪ acc).
  { induction l as [|[nk [k v]] l IH]; intros acc Hnd; simpl.
    - by rewrite fmap_empty, (left_id_L ∅ (∪)).
    - apply NoDup_cons in Hnd as [Hnk Hnd]. rewrite IH by done.
      rewrite fmap_insert. simpl. rewrite <- insert_union_l.
      rewrite insert_union_r; [done|].
      assert (Hnone : (list_to_map l : gmap NK (K * V)) !! nk = None)
        by by apply not_elem_of_list_to_map_1.
      rewrite lookup_fmap. simpl. by rewrite Hnone. }
  rewrite Hgen by apply NoDup_fst_map_to_list.
  by rewrite list_to_map_to_list, (right_id_L ∅ (∪)).
Qed.

Lemma nd_update_keys_own (l : list (NK * (K * V))) other acc :
  NoDup l.*1 →
  (∀ nk kv, (nk, kv) ∈ l → _mapping other !! nk = Some kv ∧ normalize_key kv.1 = nk) →
  nd_update_keys normalize_key l.*2.*1 other acc =
    inr (mkNormalizedDict (list_to_map l ∪ _mapping acc)).
Proof.
  revert acc. induction l as [|[nk [k v]] l IH]; intros acc Hnd Hl; simpl.
  - by rewrite (left_id_L ∅ (∪)); destruct acc.
  - apply NoDup_cons in Hnd as [Hnk Hnd].
    destruct (Hl nk (k, v)) as [Hlook Hnorm]; [left|]. simpl in Hnorm.
    unfold nd_getitem. rewrite Hnorm, Hlook. simpl.
    rewrite IH; [|done|by intros ???; apply Hl; right].
    f_equal. f_equal. unfold nd_setitem. simpl. rewrite Hnorm.
    rewrite <- insert_union_l. rewrite insert_union_r; [done|].
    by apply not_elem_of_list_to_map_1.
Qed.


Lemma elem_of_nd_keys k self :
  k ∈ nd_keys self ↔ ∃ nk v, _mapping self !! nk = Some (k, v).
Proof.
  unfold nd_keys, nd_items. split.
  - intros (kv & -> & ([nk kv'] & -> & Hin%elem_of_map_to_list)%list_elem_of_fmap)%list_elem_of_fmap.
    simpl. exists nk, kv'.2. by destruct kv'.
  - intros (nk & v & Hl). apply list_elem_of_fmap. exists (k, v). split; [done|].
    apply list_elem_of_fmap. exists (nk, (k, v)). split; [done|].
    by apply elem_of_map_to_list.
Qed.

Lemma nd_getitem_update key pairs self :
  nd_getitem normalize_key key (nd_update normalize_key pairs self) =
    match last (filter (λ kv, normalize_key kv.1 = normalize_key key) pairs) with
    | Some kv => inr kv.2
    | None => nd_getitem normalize_key key self
    end.
Proof.
  revert self. induction pairs as [|[k v] pairs IH]; intros self; [done|].
  unfold nd_update. simpl. fold (nd_update normalize_key pairs (nd_setitem normalize_key k v self)).
  rewrite IH, nd_getitem_setitem, filter_cons. simpl.
  destruct (decide (normalize_key k = normalize_key key)) as [Hk|Hk].
  - rewrite decide_True by done.
    destruct (filter _ pairs) as [|kv l] eqn:E; [done|].
    rewrite last_cons_cons.
    by destruct (proj2 (last_is_Some (kv :: l))) as [x ->].
  - by rewrite decide_False by done.
Qed.

Lemma nd_update_dom pairs self :
  dom (_mapping (nd_update normalize_key pairs self)) =
    list_to_set (normalize_key <$> pairs.*1) ∪ dom (_mapping self).
Proof.
  revert self. induction pairs as [|[k v] pairs IH]; intros self.
  - simpl. by rewrite (left_id_L ∅ (∪)).
  - unfold nd_update. simpl. fold (nd_update normalize_key pairs (nd_setitem normalize_key k v self)).
    rewrite IH. simpl. rewrite dom_insert_L.
    rewrite (assoc_L (∪)). f_equal. apply (comm_L (∪)).
Qed.

End NormalizedDictFacts.

(** X16. After [d[key] = value], every key with the same normal form
    reads [value] and the other keys read what they read before; the
    length grows by one exactly when no key of that normal form was
    there; and of the keys with that normal form the dict lists [key] as
    given, no earlier spelling. *)
Theorem normalized_dict_setitem_serves_all_spellings {K NK V : Type} `{Countable NK}
    (normalize_key : K → NK) (self : NormalizedDict K NK V) (key : K) (value : V) :
  nd_reachable normalize_key self →
  (∀ key', normalize_key key' = normalize_key key →
     nd_getitem normalize_key key' (nd_setitem normalize_key key value self) = inr value) ∧
  (∀ key', normalize_key key' ≠ normalize_key key →
     nd_getitem normalize_key key' (nd_setitem normalize_key key value self) =
       nd_getitem normalize_key key' self) ∧
  nd_len (nd_setitem normalize_key key value self) =
    match nd_getitem normalize_key key self with
    | inr _ => nd_len self
    | inl _ => nd_len self + 1
    end ∧
  (∀ k, k ∈ nd_keys (nd_setitem normalize_key key value self) ↔
        k = key ∨ (k ∈ nd_keys self ∧ normalize_key k ≠ normalize_key key)).
Proof.
  intros Hwf%nd_reachable_wf. split; [|split; [|split]].
  - intros key' Hk. rewrite nd_getitem_setitem. by rewrite decide_True.
  - intros key' Hk. rewrite nd_getitem_setitem. by rewrite decide_False.
  - unfold nd_len, nd_getitem, nd_setitem. simpl. rewrite map_size_insert.
    destruct (_ !! _); simpl; lia.
  - intros k. rewrite !elem_of_nd_keys. unfold nd_setitem. simpl. split.
    + intros (nk & v & Hl). apply lookup_insert_Some in Hl as [[_ [= -> _]]|[Hne Hl]].
      * by left.
      * right. split; [by exists nk, v|].
        pose proof (Hwf _ _ Hl) as Hk. simpl in Hk. congruence.
    + intros [->|[(nk & v & Hl) Hne]].
      * exists (normalize_key key), value. by rewrite lookup_insert_eq.
      * exists nk, v. rewrite lookup_insert_ne; [done|].
        intros <-. apply Hne. apply (Hwf _ _ Hl).
Qed.

(** X17. In a dict built from pairs, a key reads the value of the last
    pair whose key has the same normal form, [KeyError] if there is none;
    the length is the number of distinct normal forms. *)
Theorem normalized_dict_init_last_wins {K NK V : Type} `{Countable NK}
    (normalize_key : K → NK) (pairs : list (K * V)) (key : K) :
  nd_getitem normalize_key key (nd_init normalize_key pairs) =
    match last (filter (λ kv, normalize_key kv.1 = normalize_key key) pairs) with
    | Some kv => inr kv.2
    | None => inl KeyError
    end ∧
  nd_len (nd_init normalize_key pairs) =
    Z.of_nat (length (remove_dups (normalize_key <$> pairs.*1))).
Proof.
  split.
  - unfold nd_init. rewrite nd_getitem_update. destruct (last _); [done|].
    unfold nd_getitem. simpl. by rewrite lookup_empty.
  - unfold nd_len, nd_init. f_equal. rewrite <- size_dom, nd_update_dom. simpl.
    rewrite dom_empty_L, (right_id_L ∅ (∪)).
    rewrite <- (size_list_to_set (C := gset NK) (remove_dups _))
      by apply NoDup_remove_dups.
    f_equal. apply set_eq. intros nk. rewrite !elem_of_list_to_set.
    by rewrite elem_of_remove_dups.
Qed.

(** X18. [del d[key]] raises [KeyError] when no key with the normal form
    of [key] is there; otherwise it removes the item for every spelling
    of the key, changes no other item, and the length drops by one. *)
Theorem normalized_dict_delitem_any_spelling {K NK V : Type} `{Countable NK}
    (normalize_key : K → NK) (self : NormalizedDict K NK V) (key : K) :
  match nd_delitem normalize_key key self with
  | inl e => e = KeyError ∧ nd_getitem normalize_key key self = inl KeyError
  | inr self' =>
      (∃ value, nd_getitem normalize_key key self = inr value) ∧
      (∀ key', normalize_key key' = normalize_key key →
         nd_getitem normalize_key key' self' = inl KeyError) ∧
      (∀ key', normalize_key key' ≠ normalize_key key →
         nd_getitem normalize_key key' self' = nd_getitem normalize_key key' self) ∧
      nd_len self' = nd_len self - 1
  end.
Proof.
  unfold nd_delitem, nd_getitem. cbv zeta.
  destruct (_mapping self !! normalize_key key) as [kv|] eqn:E; [|done].
  split; [by eexists|]. cbn [_mapping]. split; [|split].
  - intros key' ->. by rewrite lookup_delete_eq.
  - intros key' Hne. by rewrite lookup_delete_ne.
  - unfold nd_len. cbn [_mapping]. rewrite map_size_delete, E.
    assert (size (_mapping self) ≠ 0%nat); [|lia].
    intros Hempty%map_size_empty_inv. by rewrite Hempty, lookup_empty in E.
Qed.

(** X19. [copy()] gives a dict with the same items, spellings of the keys
    included, and the copy compares equal to the original. *)
Theorem normalized_dict_copy_is_equal {K NK V : Type} `{Countable NK} `{EqDecision V}
    (normalize_key : K → NK) (self : NormalizedDict K NK V) :
  nd_reachable normalize_key self →
  nd_copy normalize_key self = inr self ∧ nd_eq self self = true.
Proof.
  intros Hwf%nd_reachable_wf. split; [|by apply bool_decide_eq_true].
  unfold nd_copy, nd_update_from, nd_keys, nd_items.
  rewrite (nd_update_keys_own normalize_key).
  - simpl. rewrite list_to_map_to_list, (right_id_L ∅ (∪)). by destruct self.
  - apply NoDup_fst_map_to_list.
  - intros nk kv Hin%elem_of_map_to_list. split; [done|]. by apply Hwf.
Qed.

(** X20. Two dicts of the class compare equal exactly when every key
    reads the same in both: the spellings of the keys do not count. *)
Theorem normalized_dict_eq_iff_same_lookups {K NK V : Type} `{Countable NK} `{EqDecision V}
    (normalize_key : K → NK) (self other : NormalizedDict K NK V) :
  nd_reachable normalize_key self → nd_reachable normalize_key other →
  nd_eq self other = true ↔
    ∀ key, nd_getitem normalize_key key self = nd_getitem normalize_key key other.
Proof.
  intros Hwf1%nd_reachable_wf Hwf2%nd_reachable_wf.
  unfold nd_eq. rewrite bool_decide_eq_true, !dict_normalized_items. split.
  - intros Heq key. unfold nd_getitem. cbv zeta.
    apply (f_equal (λ m, m !! normalize_key key)) in Heq.
    rewrite !lookup_fmap in Heq.
    destruct (_mapping self !! _), (_mapping other !! _); simpl in *; congruence.
  - intros Hget. apply map_eq. intros nk. rewrite !lookup_fmap.
    destruct (_mapping self !! nk) as [[k v]|] eqn:E1.
    + pose proof (Hget k) as Hk. unfold nd_getitem in Hk. cbv zeta in Hk.
      rewrite (Hwf1 _ _ E1 : normalize_key k = nk), E1 in Hk.
      destruct (_mapping other !! nk); simpl in *; congruence.
    + destruct (_mapping other !! nk) as [[k v]|] eqn:E2; [|done].
      pose proof (Hget k) as Hk. unfold nd_getitem in Hk. cbv zeta in Hk.
      rewrite (Hwf2 _ _ E2 : normalize_key k = nk), E1, E2 in Hk. done.
Qed.

Lemma normalized_dict_setitem_serves_all_spellings_witness :
  nd_reachable CIDict.normalize_key cidict_sample ∧
  (∀ key', CIDict.normalize_key key' = CIDict.normalize_key (str_of "aA") →
     nd_getitem CIDict.normalize_key key'
       (nd_setitem CIDict.normalize_key (str_of "aA") 42 cidict_sample) = inr 42) ∧
  (∀ key', CIDict.normalize_key key' ≠ CIDict.normalize_key (str_of "aA") →
     nd_getitem CIDict.normalize_key key'
       (nd_setitem CIDict.normalize_key (str_of "aA") 42 cidict_sample) =
       nd_getitem CIDict.normalize_key key' cidict_sample) ∧
  nd_len (nd_setitem CIDict.normalize_key (str_of "aA") 42 cidict_sample) =
    match nd_getitem CIDict.normalize_key (str_of "aA") cidict_sample with
    | inr _ => nd_len cidict_sample
    | inl _ => nd_len cidict_sample + 1
    end ∧
  (∀ k, k ∈ nd_keys (nd_setitem CIDict.normalize_key (str_of "aA") 42 cidict_sample) ↔
        k = (str_of "aA") ∨
        (k ∈ nd_keys cidict_sample ∧
         CIDict.normalize_key k ≠ CIDict.normalize_key (str_of "aA"))).
Proof.
  split; [apply nd_reach_init|].
  apply (normalized_dict_setitem_serves_all_spellings CIDict.normalize_key
           cidict_sample (str_of "aA") 42).
  apply nd_reach_init.
Defined.

Lemma normalized_dict_copy_is_equal_witness :
  nd_reachable CIDict.normalize_key cidict_sample ∧
  nd_copy CIDict.normalize_key cidict_sample = inr cidict_sample ∧
  nd_eq cidict_sample cidict_sample = true.
Proof.
  split; [apply nd_reach_init|].
  apply (normalized_dict_copy_is_equal CIDict.normalize_key cidict_sample).
  apply nd_reach_init.
Defined.

Lemma normalized_dict_eq_iff_same_lookups_witness :
  nd_reachable CIDict.normalize_key cidict_sample ∧
  nd_reachable CIDict.normalize_key
    (nd_init CIDict.normalize_key [(str_of "CC", 3); (str_of "aa", 1)]) ∧
  (nd_eq cidict_sample
     (nd_init CIDict.normalize_key [(str_of "CC", 3); (str_of "aa", 1)]) = true ↔
   ∀ key, nd_getitem CIDict.normalize_key key cidict_sample =
          nd_getitem CIDict.normalize_key key
            (nd_init CIDict.normalize_key [(str_of "CC", 3); (str_of "aa", 1)])).
Proof.
  split; [apply nd_reach_init|]. split; [apply nd_reach_init|].
  apply (normalized_dict_eq_iff_same_lookups CIDict.normalize_key cidict_sample
           (nd_init CIDict.normalize_key [(str_of "CC", 3); (str_of "aa", 1)]));
    apply nd_reach_init.
Defined.

(** The doctest of [CIDict], as far as it uses the methods above. *)
Example cidict_doctest :
  let get := nd_getitem CIDict.normalize_key in
  let d := nd_init CIDict.normalize_key [(str_of "Aa", 1); (str_of "B", 2)] in
  (get (str_of "aa") d, get (str_of "AA") d, get (str_of "Aa") d, get (str_of "aA") d) =
    (inr 1, inr 1, inr 1, inr 1) ∧
  (get (str_of "b") d, get (str_of "B") d) = (inr 2, inr 2) ∧
  ∃ d1, nd_delitem CIDict.normalize_key (str_of "b") d = inr d1 ∧
    nd_items d1 = [(str_of "Aa", 1)] ∧
    let d2 := nd_setitem CIDict.normalize_key (str_of "cC") 3 d1 in
    (get (str_of "CC") d2, get (str_of "cc") d2) = (inr 3, inr 3) ∧
    let d3 := nd_setitem CIDict.normalize_key (str_of "aA") 42 d2 in
    nd_items d3 ≡ₚ [(str_of "aA", 42); (str_of "cC", 3)] ∧
    nd_len d3 = 2 ∧
    nd_eq d3 (nd_fromkeys CIDict.normalize_key [str_of "Cc"] 3) = false ∧
    nd_delitem CIDict.normalize_key (str_of "zz") d3 = inl KeyError.
Proof.
  cbv zeta. split; [by vm_compute|]. split; [by vm_compute|].
  eexists. split; [vm_compute; reflexivity|].
  split; [by vm_compute|]. split; [by vm_compute|].
  split; [|by vm_compute].
  vm_compute. first [done | apply perm_swap].
Qed.

(** ** [int_id_to_hex] *)

Lemma hex_digit_value_hex_digit d :
  0 ≤ d < 16 → hex_digit_value (hex_digit d) = Some d ∧ hex_digit d ≠ "L"%char.
Proof.
  intros Hd.
  assert (d = 0 ∨ d = 1 ∨ d = 2 ∨ d = 3 ∨ d = 4 ∨ d = 5 ∨ d = 6 ∨ d = 7 ∨ d = 8 ∨
          d = 9 ∨ d = 10 ∨ d = 11 ∨ d = 12 ∨ d = 13 ∨ d = 14 ∨ d = 15) as Hcases by lia.
  repeat destruct Hcases as [->|Hcases]; [..|subst d]; by vm_compute.
Qed.

(** The value of [s] followed by more digits. *)
Lemma hex_value_app s1 s2 a :
  hex_value s1 = Some a →
  hex_value (s1 ++ s2) =
    foldl (λ acc c, a ← acc; d ← hex_digit_value c; Some (16 * a + d)) (Some a) s2.
Proof. unfold hex_value. rewrite foldl_app. by intros ->. Qed.

Lemma foldl_hex_None s :
  foldl (λ acc c, a ← acc; d ← hex_digit_value c; Some (16 * a + d)) None s = None.
Proof. by induction s. Qed.

(** Horner, from a start value. *)
Lemma foldl_hex_shift s a v :
  hex_value s = Some v →
  foldl (λ acc c, a ← acc; d ← hex_digit_value c; Some (16 * a + d)) (Some a) s =
    Some (a * 16 ^ Z.of_nat (length s) + v).
Proof.
  revert a v. induction s as [|c s IH] using rev_ind; intros a v.
  - simpl. intros [= <-]. f_equal. lia.
  - unfold hex_value. rewrite !foldl_app. simpl.
    fold (hex_value s).
    destruct (hex_value s) as [w|] eqn:E; [|done].
    rewrite (IH a w eq_refl). simpl.
    destruct (hex_digit_value c) as [d|]; [|done]. simpl. intros [= <-]. f_equal.
    rewrite length_app. simpl. rewrite Nat2Z.inj_add, Z.pow_add_r by lia. lia.
Qed.

Lemma hex_digits_ok fuel n acc :
  0 ≤ n < 16 ^ Z.of_nat (S fuel) →
  ∃ ds, hex_digits fuel n acc = ds ++ acc ∧
        hex_value ds = Some n ∧ Forall (λ c, c ≠ "L"%char) ds ∧
        (1 ≤ length ds)%nat ∧
        (n ≠ 0 → 16 ^ Z.of_nat (length ds - 1) ≤ n) ∧
        (n = 0 → ds = ["0"%char]).
Proof.
  revert n acc. induction fuel as [|fuel IH]; intros n acc Hn.
  - simpl. exists [hex_digit n]. change (16 ^ Z.of_nat 1) with 16 in Hn.
    rewrite Z.mod_small by lia.
    destruct (hex_digit_value_hex_digit n Hn) as [Hv HL].
    split; [done|]. split; [|split; [|split; [|split]]].
    + unfold hex_value. simpl. rewrite Hv. simpl. f_equal.
    + by constructor.
    + simpl. lia.
    + simpl. lia.
    + by intros ->.
  - cbn [hex_digits]. cbv zeta.
    pose proof (Z.div_mod n 16 ltac:(lia)) as Hdm.
    pose proof (Z.mod_pos_bound n 16 ltac:(lia)) as Hmb.
    destruct (hex_digit_value_hex_digit (n `mod` 16) Hmb) as [Hv HL].
    case_decide as Hq.
    + exists [hex_digit (n `mod` 16)].
      split; [done|]. split; [|split; [|split; [|split]]].
      * unfold hex_value. simpl. rewrite Hv. simpl. f_equal. lia.
      * by constructor.
      * simpl. lia.
      * simpl. lia.
      * intros ->. done.
    + assert (0 ≤ n `div` 16 < 16 ^ Z.of_nat (S fuel)) as Hn'.
      { split; [apply Z.div_pos; lia|].
        apply Z.div_lt_upper_bound; [lia|].
        replace (Z.of_nat (S (S fuel))) with (1 + Z.of_nat (S fuel)) in Hn by lia.
        rewrite Z.pow_add_r in Hn by lia. lia. }
      destruct (IH (n `div` 16) (hex_digit (n `mod` 16) :: acc) Hn')
        as (ds & Hds & Hval & HLs & Hlen & Hlow & _).
      exists (ds ++ [hex_digit (n `mod` 16)]).
      split; [by rewrite Hds, <- app_assoc|]. split; [|split; [|split; [|split]]].
      * rewrite (hex_value_app _ _ _ Hval). simpl. rewrite Hv. simpl. f_equal. lia.
      * apply Forall_app. split; [done|]. by constructor.
      * rewrite length_app. simpl. lia.
      * intros _. rewrite length_app. simpl.
        replace (length ds + 1 - 1)%nat with (S (length ds - 1)) by lia.
        rewrite Nat2Z.inj_succ, Z.pow_succ_r by lia.
        specialize (Hlow Hq). lia.
      * intros ->. done.
Qed.

Lemma rstrip_suffix c (ds : str) (n : nat) :
  Forall (λ c', c' ≠ c) ds → ds ≠ [] → rstrip c (ds ++ replicate n c) = ds.
Proof.
  intros Hds Hne. unfold rstrip. rewrite rev_app_distr.
  replace (rev (replicate n c)) with (replicate n c)
    by (rewrite rev_alt; apply (eq_sym (reverse_replicate n c))).
  induction n as [|n IH]; simpl.
  - destruct (rev ds) as [|c' ds'] eqn:E.
    { apply (f_equal (@rev _)) in E. rewrite rev_involutive in E. done. }
    simpl. rewrite decide_False.
    + by rewrite <- E, rev_involutive.
    + assert (c' ∈ ds) as Hin.
      { apply list_elem_of_In, in_rev. rewrite E. left. done. }
      by apply (proj1 (Forall_forall _ _) Hds).
  - by rewrite decide_True.
Qed.

Lemma hex_value_zeros (k : nat) : hex_value (replicate k "0"%char) = Some 0.
Proof.
  induction k as [|k IH] using nat_ind; [done|].
  rewrite replicate_S_end, (hex_value_app _ _ _ IH). done.
Qed.

Lemma hex_digits_of n :
  0 ≤ n →
  ∃ ds, hex_digits (Z.to_nat (Z.log2 n)) n [] = ds ∧
        hex_value ds = Some n ∧ Forall (λ c, c ≠ "L"%char) ds ∧
        (1 ≤ length ds)%nat ∧
        (n ≠ 0 → 16 ^ Z.of_nat (length ds - 1) ≤ n) ∧
        (n = 0 → ds = ["0"%char]).
Proof.
  intros Hn.
  destruct (hex_digits_ok (Z.to_nat (Z.log2 n)) n []) as (ds & Hds & H).
  { split; [done|]. pose proof (Z.log2_nonneg n).
    rewrite Nat2Z.inj_succ, Z2Nat.id by done.
    destruct (decide (n = 0)) as [->|]; [done|].
    pose proof (Z.log2_spec n ltac:(lia)) as [_ Hlt].
    eapply Z.lt_le_trans; [done|]. apply Z.pow_le_mono_l. lia. }
  exists ds. by rewrite Hds, app_nil_r.
Qed.

Lemma int_id_to_hex_nonneg (x : pyint) (min_digit_num : Z) :
  0 ≤ int_value x →
  int_id_to_hex x min_digit_num =
    inr (rjust (hex_digits (Z.to_nat (Z.log2 (int_value x))) (int_value x) [])
           min_digit_num "0"%char).
Proof.
  intros Hn. destruct (hex_digits_of _ Hn) as (ds & Hds & _ & HL & Hlen & _).
  unfold int_id_to_hex, hex. cbv zeta.
  rewrite (decide_False (P := int_value x < 0)) by lia.
  rewrite Z.abs_eq, Hds by done. cbn [app take drop]. rewrite decide_True by done.
  replace (match x with PyInt _ => [] | PyLong _ => ["L"%char] end)
    with (replicate (match x with PyInt _ => 0 | PyLong _ => 1 end) "L"%char)
    by (by destruct x).
  rewrite drop_0, rstrip_suffix; [done|done|]. destruct ds; [simpl in Hlen; lia|done].
Qed.

(** X21. [int_id_to_hex] fails (its assertion) exactly for a negative
    number; otherwise the result is the number written with the digits
    0-9a-f, without sign, prefix or suffix, without a leading zero other
    than the padding that brings it to [min_digit_num] characters; it is
    the same for an [int] and a [long]. *)
Theorem int_id_to_hex_digits (int_id : pyint) (min_digit_num : Z) :
  match int_id_to_hex int_id min_digit_num with
  | inl e => e = AssertionError ∧ int_value int_id < 0
  | inr r =>
      0 ≤ int_value int_id ∧
      hex_value r = Some (int_value int_id) ∧
      min_digit_num ≤ Z.of_nat (length r) ∧
      (∃ digits,
         r = replicate (Z.to_nat (min_digit_num - Z.of_nat (length digits))) "0"%char
               ++ digits ∧
         (1 ≤ length digits)%nat ∧
         (int_value int_id ≠ 0 → 16 ^ Z.of_nat (length digits - 1) ≤ int_value int_id) ∧
         (int_value int_id = 0 → digits = ["0"%char])) ∧
      int_id_to_hex (PyInt (int_value int_id)) min_digit_num = inr r ∧
      int_id_to_hex (PyLong (int_value int_id)) min_digit_num = inr r
  end.
Proof.
  destruct (decide (int_value int_id < 0)) as [Hneg|Hpos].
  - unfold int_id_to_hex, hex. cbv zeta.
    rewrite (decide_True (P := int_value int_id < 0)) by done.
    simpl. done.
  - rewrite int_id_to_hex_nonneg by lia.
    rewrite (int_id_to_hex_nonneg (PyInt _)), (int_id_to_hex_nonneg (PyLong _)) by (simpl; lia).
    simpl.
    destruct (hex_digits_of (int_value int_id)) as (ds & -> & Hval & _ & Hlen & Hlow & Hzero);
      [lia|].
    unfold rjust. split; [lia|]. split; [|split; [|split; [|done]]].
    + rewrite (hex_value_app _ _ _ (hex_value_zeros _)).
      rewrite (foldl_hex_shift _ _ _ Hval). f_equal; lia.
    + rewrite length_app, length_replicate. lia.
    + by exists ds.
Qed.

Example int_id_to_hex_doctest :
  int_id_to_hex (PyInt 1) 0 = inr ["1"]%char ∧
  int_id_to_hex (PyLong 31) 1 = inr ["1"; "f"]%char ∧
  int_id_to_hex (PyInt 31) 3 = inr ["0"; "1"; "f"]%char ∧
  int_id_to_hex (PyLong 22539340290692258087863249) 30 =
    inr (String.list_ascii_of_string "0000000012a4e415e1e1b36ff883d1") ∧
  int_id_to_hex (PyInt (-31)) 0 = inl AssertionError.
Proof. repeat split; by vm_compute. Qed.
